(** * A verified model of the todo component of [src/App.tsx]

    The component keeps a list of todos in React state, persists it to
    [localStorage] under one key through [JSON.stringify], and reads it back
    at start-up with [JSON.parse].  This development embeds

    - the JavaScript values the component touches: strings as sequences of
      UTF-16 code units, integral numbers as [Z];
    - the platform functions it calls ([String.prototype.trim], [JSON.parse],
      [JSON.stringify] on a [Todo[]], [Storage.getItem]/[setItem]), following
      ECMA-262 and ECMA-404;
    - every function of [App.tsx], under its own name.

    Floating point is not modelled: a number is an integer held exactly, which
    is what a JavaScript number is between [-(2^53 - 1)] and [2^53 - 1]. *)

From Stdlib Require Import List ZArith NArith Bool Lia String Ascii.
#[local] Set Warnings "-register-all".
Import ListNotations.

Set Implicit Arguments.

(** ** JavaScript strings *)

Module Str.

Local Open Scope N_scope.

(** A string value is a finite sequence of 16-bit code units. *)
Definition t := list N.

Definition code_unit (c : N) : Prop := c < 65536.
Definition well_formed (s : t) : Prop := Forall code_unit s.

(** A literal of the source, written in ASCII. *)
Definition lit (s : string) : t := map N_of_ascii (list_ascii_of_string s).

Fixpoint eqb (a b : t) : bool :=
  match a, b with
  | [], [] => true
  | x :: a', y :: b' => (x =? y) && eqb a' b'
  | _, _ => false
  end.

(** ToBoolean on a string: the empty string is the only falsy one. *)
Definition truthy (s : t) : bool :=
  match s with [] => false | _ :: _ => true end.

(** WhiteSpace and LineTerminator of ECMA-262 (12.2, 12.3): what [trim]
    strips.  All of them are single code units. *)
Definition white_space : list N :=
  [ 9; 11; 12; 32; 160; 5760;
    8192; 8193; 8194; 8195; 8196; 8197; 8198; 8199; 8200; 8201; 8202;
    8239; 8287; 12288; 65279 ].
Definition line_terminator : list N := [ 10; 13; 8232; 8233 ].

Definition is_space (c : N) : bool :=
  existsb (N.eqb c) white_space || existsb (N.eqb c) line_terminator.

Fixpoint trimStart (s : t) : t :=
  match s with
  | [] => []
  | c :: r => if is_space c then trimStart r else s
  end.

Definition trimEnd (s : t) : t := rev (trimStart (rev s)).

(** [String.prototype.trim]: TrimString(S, start+end). *)
Definition trim (s : t) : t := trimEnd (trimStart s).

(** Empty or made of white space only. *)
Definition blank (s : t) : bool := forallb is_space s.

End Str.

Definition jsstring : Type := Str.t.

(** ** Completion records

    A call either returns normally or throws; [try]/[catch] is a match on
    the completion. *)

Inductive exn : Type := SyntaxError.

Inductive completion (A : Type) : Type :=
| Return (a : A)
| Throw (e : exn).
Arguments Return {A} a.
Arguments Throw {A} e.

Definition try_catch {A} (body : completion A) (handler : exn -> completion A)
  : completion A :=
  match body with
  | Return a => Return a
  | Throw e => handler e
  end.

(** ** JSON: the values, [JSON.parse], and [JSON.stringify]'s pieces *)

Module JSON.

Local Open Scope N_scope.

(** A number read from JSON text.  An integer literal is its value; a
    literal with a fraction or an exponent is kept as written, since its
    value is a floating-point number. *)
Inductive number : Type :=
| Integer (z : Z)
| Literal (text : jsstring).

(** What [JSON.parse] can return.  An object lists its own properties in
    creation order. *)
Inductive value : Type :=
| Null
| Bool (b : bool)
| Num (n : number)
| String (s : jsstring)
| Array (elements : list value)
| Object (properties : list (jsstring * value)).

(** Code units of the JSON grammar. *)
Definition QUOTE : N := 34.       (* the double quote *)
Definition BACKSLASH : N := 92.
Definition SOLIDUS : N := 47.
Definition COMMA : N := 44.
Definition COLON : N := 58.
Definition LBRACKET : N := 91.
Definition RBRACKET : N := 93.
Definition LBRACE : N := 123.
Definition RBRACE : N := 125.
Definition MINUS : N := 45.
Definition PLUS : N := 43.
Definition DOT : N := 46.
Definition ZERO : N := 48.

(** JSON white space: tab, line feed, carriage return, space; nothing else. *)
Definition is_ws (c : N) : bool :=
  (c =? 9) || (c =? 10) || (c =? 13) || (c =? 32).

Fixpoint skip_ws (s : jsstring) : jsstring :=
  match s with
  | [] => []
  | c :: r => if is_ws c then skip_ws r else s
  end.

Definition is_digit (c : N) : bool := (48 <=? c) && (c <=? 57).

(** The longest prefix of decimal digits, and what follows it. *)
Fixpoint take_digits (s : jsstring) : jsstring * jsstring :=
  match s with
  | [] => ([], [])
  | c :: r =>
      if is_digit c
      then let (ds, rest) := take_digits r in (c :: ds, rest)
      else ([], s)
  end.

Definition digits_value (ds : jsstring) : N :=
  fold_left (fun acc d => 10 * acc + (d - 48)) ds 0.

(** The same value, from digits listed least significant first. *)
Definition value_le (ds : jsstring) : N :=
  fold_right (fun d acc => 10 * acc + (d - 48)) 0 ds.

Definition hex_value (c : N) : option N :=
  if is_digit c then Some (c - 48)
  else if (97 <=? c) && (c <=? 102) then Some (c - 87)
  else if (65 <=? c) && (c <=? 70) then Some (c - 55)
  else None.

Definition hex4_value (a b c d : N) : option N :=
  match hex_value a, hex_value b, hex_value c, hex_value d with
  | Some x3, Some x2, Some x1, Some x0 =>
      Some (4096 * x3 + 256 * x2 + 16 * x1 + x0)
  | _, _, _, _ => None
  end.

(** The code unit a one-letter escape stands for. *)
Definition unescape (c : N) : option N :=
  if c =? QUOTE then Some QUOTE
  else if c =? BACKSLASH then Some BACKSLASH
  else if c =? SOLIDUS then Some SOLIDUS
  else if c =? 98 then Some 8          (* b *)
  else if c =? 102 then Some 12        (* f *)
  else if c =? 110 then Some 10        (* n *)
  else if c =? 114 then Some 13        (* r *)
  else if c =? 116 then Some 9         (* t *)
  else None.

(** JSONString, read after its opening quote: the characters up to the
    closing quote, escapes decoded, and the text after the closing quote.
    A control character below U+0020 may not appear unescaped. *)
Fixpoint parse_chars (s : jsstring) : option (jsstring * jsstring) :=
  match s with
  | [] => None
  | c :: r =>
      if c =? QUOTE then Some ([], r)
      else if c =? BACKSLASH then
        match r with
        | [] => None
        | e :: r1 =>
            if e =? 117 then                      (* u *)
              match r1 with
              | h3 :: h2 :: h1 :: h0 :: r2 =>
                  match hex4_value h3 h2 h1 h0, parse_chars r2 with
                  | Some u, Some (cs, rest) => Some (u :: cs, rest)
                  | _, _ => None
                  end
              | _ => None
              end
            else
              match unescape e, parse_chars r1 with
              | Some u, Some (cs, rest) => Some (u :: cs, rest)
              | _, _ => None
              end
        end
      else if c <? 32 then None
      else
        match parse_chars r with
        | Some (cs, rest) => Some (c :: cs, rest)
        | None => None
        end
  end.

(** JSONNumber: an optional minus; then a single 0, or a non-zero digit
    followed by digits; then optionally a dot and digits; then optionally
    e or E, an optional sign, and digits. *)
Definition parse_int_part (s : jsstring) : option (jsstring * jsstring) :=
  match s with
  | [] => None
  | c :: r =>
      if c =? ZERO then Some ([c], r)
      else if is_digit c then Some (take_digits s)
      else None
  end.

Definition parse_frac_part (s : jsstring) : option (jsstring * jsstring) :=
  match s with
  | c :: r =>
      if c =? DOT then
        match take_digits r with
        | ([], _) => None
        | (ds, rest) => Some (c :: ds, rest)
        end
      else Some ([], s)
  | [] => Some ([], s)
  end.

Definition parse_exp_part (s : jsstring) : option (jsstring * jsstring) :=
  match s with
  | c :: r =>
      if (c =? 101) || (c =? 69) then              (* e E *)
        let (sign, r1) :=
          match r with
          | g :: r' => if (g =? PLUS) || (g =? MINUS) then ([g], r') else ([], r)
          | [] => ([], r)
          end in
        match take_digits r1 with
        | ([], _) => None
        | (ds, rest) => Some (c :: sign ++ ds, rest)
        end
      else Some ([], s)
  | [] => Some ([], s)
  end.

(** The number after its sign. *)
Definition parse_magnitude (neg : bool) (s : jsstring) : option (number * jsstring) :=
  match parse_int_part s with
  | None => None
  | Some (int, s2) =>
      match parse_frac_part s2 with
      | None => None
      | Some (frac, s3) =>
          match parse_exp_part s3 with
          | None => None
          | Some (exp, s4) =>
              match frac, exp with
              | [], [] =>
                  let n := Z.of_N (digits_value int) in
                  Some (Integer (if neg then - n else n)%Z, s4)
              | _, _ =>
                  Some (Literal ((if neg then [MINUS] else []) ++ int ++ frac ++ exp), s4)
              end
          end
      end
  end.

Definition parse_number (s : jsstring) : option (number * jsstring) :=
  match s with
  | c :: r => if c =? MINUS then parse_magnitude true r else parse_magnitude false s
  | [] => None
  end.

(** [strip_prefix p s] is what follows [p] in [s], when [s] starts with [p]. *)
Fixpoint strip_prefix (p s : jsstring) : option jsstring :=
  match p, s with
  | [], _ => Some s
  | a :: p', b :: s' => if a =? b then strip_prefix p' s' else None
  | _ :: _, [] => None
  end.

(** CreateDataProperty on the object under construction: a repeated key
    keeps its place and takes the later value. *)
Fixpoint define_property (k : jsstring) (v : value)
  (props : list (jsstring * value)) : list (jsstring * value) :=
  match props with
  | [] => [(k, v)]
  | (k', v') :: rest =>
      if Str.eqb k k' then (k', v) :: rest
      else (k', v') :: define_property k v rest
  end.

Definition make_object (members : list (jsstring * value)) : value :=
  Object (fold_left (fun props kv => define_property (fst kv) (snd kv) props)
            members []).

(** Result of the recursive-descent reader: a value with the remaining
    text, a syntax error, or not enough fuel for the nesting. *)
Inductive parsed (A : Type) : Type :=
| Parsed (a : A) (rest : jsstring)
| Malformed
| OutOfFuel.
Arguments Parsed {A} a rest.
Arguments Malformed {A}.
Arguments OutOfFuel {A}.

(** JSONValue, JSONElementList and JSONMemberList.  The text handed to each
    has its leading white space removed. *)
Fixpoint parse_value (fuel : nat) (s : jsstring) : parsed value :=
  match fuel with
  | O => OutOfFuel
  | S fuel' =>
      match s with
      | [] => Malformed
      | c :: r =>
          if c =? QUOTE then
            match parse_chars r with
            | Some (cs, rest) => Parsed (String cs) rest
            | None => Malformed
            end
          else if c =? LBRACKET then
            match skip_ws r with
            | c1 :: r1 =>
                if c1 =? RBRACKET then Parsed (Array []) r1
                else
                  match parse_elements fuel' (c1 :: r1) with
                  | Parsed vs rest => Parsed (Array vs) rest
                  | Malformed => Malformed
                  | OutOfFuel => OutOfFuel
                  end
            | [] => Malformed
            end
          else if c =? LBRACE then
            match skip_ws r with
            | c1 :: r1 =>
                if c1 =? RBRACE then Parsed (Object []) r1
                else
                  match parse_members fuel' (c1 :: r1) with
                  | Parsed ms rest => Parsed (make_object ms) rest
                  | Malformed => Malformed
                  | OutOfFuel => OutOfFuel
                  end
            | [] => Malformed
            end
          else if (c =? MINUS) || is_digit c then
            match parse_number s with
            | Some (n, rest) => Parsed (Num n) rest
            | None => Malformed
            end
          else
            match strip_prefix (Str.lit "null") s,
                  strip_prefix (Str.lit "true") s,
                  strip_prefix (Str.lit "false") s with
            | Some rest, _, _ => Parsed Null rest
            | _, Some rest, _ => Parsed (Bool true) rest
            | _, _, Some rest => Parsed (Bool false) rest
            | None, None, None => Malformed
            end
      end
  end

with parse_elements (fuel : nat) (s : jsstring) : parsed (list value) :=
  match fuel with
  | O => OutOfFuel
  | S fuel' =>
      match parse_value fuel' s with
      | Parsed v rest =>
          match skip_ws rest with
          | c :: r =>
              if c =? COMMA then
                match parse_elements fuel' (skip_ws r) with
                | Parsed vs rest' => Parsed (v :: vs) rest'
                | Malformed => Malformed
                | OutOfFuel => OutOfFuel
                end
              else if c =? RBRACKET then Parsed [v] r
              else Malformed
          | [] => Malformed
          end
      | Malformed => Malformed
      | OutOfFuel => OutOfFuel
      end
  end

with parse_members (fuel : nat) (s : jsstring)
  : parsed (list (jsstring * value)) :=
  match fuel with
  | O => OutOfFuel
  | S fuel' =>
      match s with
      | c :: r =>
          if c =? QUOTE then
            match parse_chars r with
            | Some (k, r1) =>
                match skip_ws r1 with
                | c2 :: r2 =>
                    if c2 =? COLON then
                      match parse_value fuel' (skip_ws r2) with
                      | Parsed v rest =>
                          match skip_ws rest with
                          | c3 :: r3 =>
                              if c3 =? COMMA then
                                match parse_members fuel' (skip_ws r3) with
                                | Parsed ms rest' => Parsed ((k, v) :: ms) rest'
                                | Malformed => Malformed
                                | OutOfFuel => OutOfFuel
                                end
                              else if c3 =? RBRACE then Parsed [(k, v)] r3
                              else Malformed
                          | [] => Malformed
                          end
                      | Malformed => Malformed
                      | OutOfFuel => OutOfFuel
                      end
                    else Malformed
                | [] => Malformed
                end
            | None => Malformed
            end
          else Malformed
      | [] => Malformed
      end
  end.

(** Nesting costs at most two units of fuel per code unit read. *)
Definition fuel_for (s : jsstring) : nat := 2 * List.length s + 2.

(** [JSON.parse(text)] without a reviver: the one value of a JSON text,
    white space allowed around it; anything else throws a SyntaxError. *)
Definition parse (text : jsstring) : completion value :=
  match parse_value (fuel_for text) (skip_ws text) with
  | Parsed v rest =>
      match skip_ws rest with
      | [] => Return v
      | _ :: _ => Throw SyntaxError
      end
  | Malformed | OutOfFuel => Throw SyntaxError
  end.

(** *** The pieces of [JSON.stringify] (no replacer, no indentation) *)

(** QuoteJSONString's table of two-character escapes. *)
Definition escape_letter (c : N) : option N :=
  if c =? 8 then Some 98               (* b *)
  else if c =? 9 then Some 116         (* t *)
  else if c =? 10 then Some 110        (* n *)
  else if c =? 12 then Some 102        (* f *)
  else if c =? 13 then Some 114        (* r *)
  else if c =? QUOTE then Some QUOTE
  else if c =? BACKSLASH then Some BACKSLASH
  else None.

Definition hex_digit (n : N) : N := if n <? 10 then 48 + n else 87 + n.

(** UnicodeEscape: backslash, u, and four lowercase hexadecimal digits. *)
Definition unicode_escape (c : N) : jsstring :=
  [ BACKSLASH; 117;
    hex_digit (c / 4096); hex_digit ((c / 256) mod 16);
    hex_digit ((c / 16) mod 16); hex_digit (c mod 16) ].

Definition is_leading_surrogate (c : N) : bool := (55296 <=? c) && (c <=? 56319).
Definition is_trailing_surrogate (c : N) : bool := (56320 <=? c) && (c <=? 57343).

(** The body of QuoteJSONString, code point by code point: a surrogate pair
    is one code point and is copied; a surrogate on its own is escaped. *)
Fixpoint quote_chars (s : jsstring) : jsstring :=
  match s with
  | [] => []
  | c :: r =>
      match escape_letter c with
      | Some e => BACKSLASH :: e :: quote_chars r
      | None =>
          if c <? 32 then unicode_escape c ++ quote_chars r
          else if is_leading_surrogate c then
            match r with
            | d :: r' =>
                if is_trailing_surrogate d then c :: d :: quote_chars r'
                else unicode_escape c ++ quote_chars r
            | [] => unicode_escape c
            end
          else if is_trailing_surrogate c then unicode_escape c ++ quote_chars r
          else c :: quote_chars r
      end
  end.

Definition quote (s : jsstring) : jsstring := QUOTE :: quote_chars s ++ [QUOTE].

(** Decimal digits, least significant first. *)
Fixpoint digits_le (fuel : nat) (n : N) : jsstring :=
  match fuel with
  | O => []
  | S fuel' =>
      (48 + n mod 10) :: (if n / 10 =? 0 then [] else digits_le fuel' (n / 10))
  end.

Definition decimal (n : N) : jsstring := rev (digits_le (S (N.to_nat (N.size n))) n).

(** Number::toString(x, 10) for an integer of magnitude below 10^21: its
    decimal digits, after a minus sign when it is negative. *)
Definition number_to_string (z : Z) : jsstring :=
  if (z <? 0)%Z then MINUS :: decimal (Z.abs_N z) else decimal (Z.abs_N z).

Fixpoint join (sep : jsstring) (parts : list jsstring) : jsstring :=
  match parts with
  | [] => []
  | [p] => p
  | p :: ps => p ++ sep ++ join sep ps
  end.

(** SerializeJSONObject, given each property's key and serialized value. *)
Definition serialize_object (props : list (jsstring * jsstring)) : jsstring :=
  LBRACE :: join [COMMA] (map (fun kv => quote (fst kv) ++ COLON :: snd kv) props)
    ++ [RBRACE].

(** SerializeJSONArray, given each element's serialization. *)
Definition serialize_array (elements : list jsstring) : jsstring :=
  LBRACKET :: join [COMMA] elements ++ [RBRACKET].

Definition serialize_bool (b : bool) : jsstring :=
  if b then Str.lit "true" else Str.lit "false".

End JSON.

(** ** Web Storage: [localStorage] as a key-value store of strings *)

Module Storage.

Definition t : Type := list (jsstring * jsstring).

Fixpoint getItem (key : jsstring) (st : t) : option jsstring :=
  match st with
  | [] => None
  | (k, v) :: rest => if Str.eqb key k then Some v else getItem key rest
  end.

Fixpoint removeItem (key : jsstring) (st : t) : t :=
  match st with
  | [] => []
  | (k, v) :: rest =>
      if Str.eqb key k then removeItem key rest else (k, v) :: removeItem key rest
  end.

Definition setItem (key value : jsstring) (st : t) : t :=
  (key, value) :: removeItem key st.

End Storage.

(** ** The component of [App.tsx] *)

(** *** Types and constants *)

Record Todo : Type := {
  id : Z;
  title : jsstring;
  completed : bool
}.

Inductive Filter : Type := All | Active | Completed.

Definition LOCAL_STORAGE_KEY : jsstring := Str.lit "react-todos".
Definition FILTERS : list Filter := [All; Active; Completed].

(** *** Values of type [Todo] as JavaScript values *)

(** [Number.isSafeInteger]: the integers a JavaScript number holds exactly. *)
Definition safe_integer (z : Z) : Prop :=
  (- (2 ^ 53 - 1) <= z <= 2 ^ 53 - 1)%Z.

(** The values of type [Todo] that exist in JavaScript: the id is a number
    holding an integer exactly, the title a sequence of 16-bit code units. *)
Definition well_formed_todo (t : Todo) : Prop :=
  safe_integer (id t) /\ Str.well_formed (title t).

(** The object [{ id, title, completed }], properties in creation order. *)
Definition todo_value (t : Todo) : JSON.value :=
  JSON.Object
    [ (Str.lit "id", JSON.Num (JSON.Integer (id t)));
      (Str.lit "title", JSON.String (title t));
      (Str.lit "completed", JSON.Bool (completed t)) ].

Definition todos_value (todos : list Todo) : JSON.value :=
  JSON.Array (map todo_value todos).

(** Reading a value at the type [Todo]: an object with exactly the three
    properties, of the declared types. *)
Definition as_todo (v : JSON.value) : option Todo :=
  match v with
  | JSON.Object [ (k1, JSON.Num (JSON.Integer i));
                  (k2, JSON.String s);
                  (k3, JSON.Bool b) ] =>
      if Str.eqb k1 (Str.lit "id") && Str.eqb k2 (Str.lit "title")
         && Str.eqb k3 (Str.lit "completed")
      then Some {| id := i; title := s; completed := b |}
      else None
  | _ => None
  end.

Fixpoint as_todo_list (vs : list JSON.value) : option (list Todo) :=
  match vs with
  | [] => Some []
  | v :: rest =>
      match as_todo v, as_todo_list rest with
      | Some t, Some ts => Some (t :: ts)
      | _, _ => None
      end
  end.

(** Reading a value at the type [Todo[]]. *)
Definition as_todos (v : JSON.value) : option (list Todo) :=
  match v with
  | JSON.Array vs => as_todo_list vs
  | _ => None
  end.

(** [JSON.stringify] applied to a [Todo[]]. *)
Definition stringify_todo (t : Todo) : jsstring :=
  JSON.serialize_object
    [ (Str.lit "id", JSON.number_to_string (id t));
      (Str.lit "title", JSON.quote (title t));
      (Str.lit "completed", JSON.serialize_bool (completed t)) ].

Definition stringify_todos (todos : list Todo) : jsstring :=
  JSON.serialize_array (map stringify_todo todos).

(** *** [loadTodos] and [saveTodos] *)

(** [x || d] for [x : string | null]. *)
Definition or_default (x : option jsstring) (d : jsstring) : jsstring :=
  match x with
  | Some s => if Str.truthy s then s else d
  | None => d
  end.

Definition loadTodos (localStorage : Storage.t) : completion JSON.value :=
  try_catch
    (JSON.parse
       (or_default (Storage.getItem LOCAL_STORAGE_KEY localStorage) (Str.lit "[]")))
    (fun _ => Return (JSON.Array [])).

Definition saveTodos (todos : list Todo) (localStorage : Storage.t) : Storage.t :=
  Storage.setItem LOCAL_STORAGE_KEY (stringify_todos todos) localStorage.

(** *** State of [TodoApp]

    The four [useState] cells, and the storage the effect writes to. *)

Record Component : Type := {
  todos : list Todo;
  filter : Filter;
  editingId : option Z;
  editValue : jsstring;
  localStorage : Storage.t
}.

(** [setTodos]: the next render has the new list, and the effect that
    depends on [todos] saves it. *)
Definition setTodos (l : list Todo) (c : Component) : Component :=
  {| todos := l; filter := filter c; editingId := editingId c;
     editValue := editValue c; localStorage := saveTodos l (localStorage c) |}.

Definition setFilter (f : Filter) (c : Component) : Component :=
  {| todos := todos c; filter := f; editingId := editingId c;
     editValue := editValue c; localStorage := localStorage c |}.

Definition setEditingId (i : option Z) (c : Component) : Component :=
  {| todos := todos c; filter := filter c; editingId := i;
     editValue := editValue c; localStorage := localStorage c |}.

Definition setEditValue (v : jsstring) (c : Component) : Component :=
  {| todos := todos c; filter := filter c; editingId := editingId c;
     editValue := v; localStorage := localStorage c |}.

(** The first render: state initialised from [loadTodos()], then the effect
    runs once.  Defined when what was loaded has the type [Todo[]]. *)
Definition TodoApp (storage : Storage.t) : option Component :=
  match loadTodos storage with
  | Return v =>
      match as_todos v with
      | Some l =>
          Some {| todos := l; filter := All; editingId := None;
                  editValue := []; localStorage := saveTodos l storage |}
      | None => None
      end
  | Throw _ => None
  end.

(** *** Derived values *)

Definition filteredTodos (c : Component) : list Todo :=
  List.filter
    (fun todo =>
       match filter c with
       | All => true
       | Active => negb (completed todo)
       | Completed => completed todo
       end)
    (todos c).

Definition activeCount (c : Component) : nat :=
  List.length (List.filter (fun t => negb (completed t)) (todos c)).

Definition completedCount (c : Component) : nat :=
  List.length (List.filter (fun t => completed t) (todos c)).

(** *** Handlers *)

(** [now] is what [Date.now()] returns; [newTodoRef] is the value of the
    input the ref points to, [None] when the ref is not attached.  The
    second component is the input's value afterwards. *)
Definition handleAddTodo (now : Z) (newTodoRef : option jsstring) (c : Component)
  : Component * option jsstring :=
  let value :=
    match newTodoRef with
    | Some v => Str.trim v
    | None => []
    end in
  if Str.truthy value then
    ( setTodos (todos c ++ [ {| id := now; title := value; completed := false |} ]) c,
      match newTodoRef with Some _ => Some [] | None => None end )
  else (c, newTodoRef).

Definition handleToggle (i : Z) (c : Component) : Component :=
  setTodos
    (map (fun t =>
            if (id t =? i)%Z
            then {| id := id t; title := title t; completed := negb (completed t) |}
            else t)
       (todos c))
    c.

Definition handleDelete (i : Z) (c : Component) : Component :=
  setTodos (List.filter (fun t => negb (id t =? i)%Z) (todos c)) c.

Definition handleEditStart (todo : Todo) (c : Component) : Component :=
  setEditValue (title todo) (setEditingId (Some (id todo)) c).

Definition handleEditChange (target_value : jsstring) (c : Component) : Component :=
  setEditValue target_value c.

Definition handleEditSubmit (i : Z) (c : Component) : Component :=
  let val := Str.trim (editValue c) in
  let c1 :=
    if Str.truthy val then
      setTodos
        (map (fun t =>
                if (id t =? i)%Z
                then {| id := id t; title := val; completed := completed t |}
                else t)
           (todos c))
        c
    else handleDelete i c in
  setEditValue [] (setEditingId None c1).

Definition handleEditKeyDown (key : jsstring) (i : Z) (c : Component) : Component :=
  if Str.eqb key (Str.lit "Enter") then handleEditSubmit i c
  else if Str.eqb key (Str.lit "Escape") then setEditValue [] (setEditingId None c)
  else c.

Definition handleEditBlur (i : Z) (c : Component) : Component :=
  handleEditSubmit i c.

Definition handleClearCompleted (c : Component) : Component :=
  setTodos (List.filter (fun t => negb (completed t)) (todos c)) c.

Definition handleMarkAll (target_checked : bool) (c : Component) : Component :=
  setTodos
    (map (fun t => {| id := id t; title := title t; completed := target_checked |})
       (todos c))
    c.

Definition setCurrentFilter (f : Filter) (c : Component) : Component :=
  setFilter f c.

(** *** What is rendered

    The main section and the footer exist only while the list is not empty. *)

Record View : Type := {
  toggle_all_checked : option bool;
  todo_list : option (list Todo);
  todo_count : option nat;
  clear_completed : bool
}.

Definition render (c : Component) : View :=
  let shown := (0 <? List.length (todos c))%nat in
  {| toggle_all_checked :=
       if shown then Some (activeCount c =? 0)%nat else None;
     todo_list := if shown then Some (filteredTodos c) else None;
     todo_count := if shown then Some (activeCount c) else None;
     clear_completed := shown && (0 <? completedCount c)%nat |}.

(** *** Events

    Each event of the page runs one handler on the current state. *)

Inductive Event : Type :=
| Submit (now : Z) (newTodoRef : option jsstring)
| ToggleClick (i : Z)
| DestroyClick (i : Z)
| DoubleClick (todo : Todo)
| EditInput (target_value : jsstring)
| EditKeyDown (key : jsstring) (i : Z)
| EditBlur (i : Z)
| ClearCompletedClick
| ToggleAllChange (target_checked : bool)
| FilterClick (f : Filter).

Definition dispatch (e : Event) (c : Component) : Component :=
  match e with
  | Submit now r => fst (handleAddTodo now r c)
  | ToggleClick i => handleToggle i c
  | DestroyClick i => handleDelete i c
  | DoubleClick todo => handleEditStart todo c
  | EditInput v => handleEditChange v c
  | EditKeyDown k i => handleEditKeyDown k i c
  | EditBlur i => handleEditBlur i c
  | ClearCompletedClick => handleClearCompleted c
  | ToggleAllChange b => handleMarkAll b c
  | FilterClick f => setCurrentFilter f c
  end.

Definition run (events : list Event) (c : Component) : Component :=
  fold_left (fun c e => dispatch e c) events c.

(** Every state a run passes through, the first one included. *)
Fixpoint trace (events : list Event) (c : Component) : list Component :=
  match events with
  | [] => [c]
  | e :: rest => c :: trace rest (dispatch e c)
  end.

(** Page loads one after the other: each starts from the storage the
    previous one left.  The result lists every state passed through. *)
Fixpoint sessions (loads : list (list Event)) (storage : Storage.t)
  : option (list Component) :=
  match loads with
  | [] => Some []
  | events :: later =>
      match TodoApp storage with
      | None => None
      | Some c =>
          match sessions later (localStorage (run events c)) with
          | Some states => Some (trace events c ++ states)
          | None => None
          end
      end
  end.

(** The operations of the specification, on the component. *)
Definition Add (now : Z) (text : jsstring) (c : Component) : Component :=
  fst (handleAddTodo now (Some text) c).

Definition CommitEdit (i : Z) (draftText : jsstring) (c : Component) : Component :=
  handleEditSubmit i (handleEditChange draftText c).

(** A fresh page with nothing stored. *)
Definition empty_app : Component :=
  {| todos := []; filter := All; editingId := None; editValue := [];
     localStorage := saveTodos [] [] |}.

(** ** Notions used in the statements *)

(** The task [Add] creates. *)
Definition new_todo (now : Z) (text : jsstring) : Todo :=
  {| id := now; title := Str.trim text; completed := false |}.

(** A series of [Add]s, each with its clock reading and the text typed. *)
Definition add_all (adds : list (Z * jsstring)) (c : Component) : Component :=
  fold_left (fun c a => Add (fst a) (snd a) c) adds c.

(** The adds whose text is not empty once trimmed. *)
Definition accepted (adds : list (Z * jsstring)) : list (Z * jsstring) :=
  List.filter (fun a => negb (Str.blank (snd a))) adds.

(** The filter predicates as the specification words them. *)
Definition passes (f : Filter) (t : Todo) : bool :=
  match f with
  | All => true
  | Active => negb (completed t)
  | Completed => completed t
  end.

(** [selection p l l']: [l'] is [l] with exactly the elements failing [p]
    struck out, the others left where they stand. *)
Inductive selection (p : Todo -> bool) : list Todo -> list Todo -> Prop :=
| selection_nil : selection p [] []
| selection_keep t l l' :
    p t = true -> selection p l l' -> selection p (t :: l) (t :: l')
| selection_drop t l l' :
    p t = false -> selection p l l' -> selection p (t :: l) l'.

Fixpoint count (p : Todo -> bool) (l : list Todo) : nat :=
  match l with
  | [] => 0
  | t :: rest => (if p t then 1 else 0) + count p rest
  end.

Definition toggled (t : Todo) : Todo :=
  {| id := id t; title := title t; completed := negb (completed t) |}.

Definition retitled (text : jsstring) (t : Todo) : Todo :=
  {| id := id t; title := text; completed := completed t |}.

(** The scenario of the specification: two adds at the given clock
    readings, a toggle on the id of the first task, the Active filter. *)
Definition scenario (now1 now2 : Z) : Component :=
  let c := Add now2 (Str.lit "feed cat") (Add now1 (Str.lit "buy milk") empty_app) in
  let c := match todos c with
           | first :: _ => handleToggle (id first) c
           | [] => c
           end in
  setCurrentFilter Active c.

(** No title is empty or made of white space only. *)
Definition titles_ok (l : list Todo) : Prop :=
  Forall (fun t => Str.blank (title t) = false) l.

(** The storage entry holds the serialization of [l]. *)
Definition stored (storage : Storage.t) (l : list Todo) : Prop :=
  Storage.getItem LOCAL_STORAGE_KEY storage = Some (stringify_todos l).

Definition ids (c : Component) : list Z := map id (todos c).

(** The clock reading of a submit is not an id in use. *)
Definition fresh_clock (e : Event) (c : Component) : Prop :=
  match e with
  | Submit now _ => ~ In now (ids c)
  | _ => True
  end.

(** What a page load may find in storage when only this component writes
    the entry: nothing, or the serialization of a list without blank
    titles. *)
Definition storage_ok (storage : Storage.t) : Prop :=
  Storage.getItem LOCAL_STORAGE_KEY storage = None
  \/ exists l, stored storage l /\ titles_ok l.

(** The list in memory has no blank title and is the one in storage. *)
Definition persisted_ok (c : Component) : Prop :=
  stored (localStorage c) (todos c) /\ titles_ok (todos c).

(** A list with a title that needs every kind of escape. *)
Definition sample_todos : list Todo :=
  [ {| id := 1730000000000; title := Str.lit "buy milk"; completed := false |};
    {| id := -5;
       title := [34; 92; 10; 1; 55357; 56832; 55357; 65; 56832; 233]%N;
       completed := true |} ].

Definition toggle_sample : Component :=
  Add 2 (Str.lit "feed cat") (Add 1 (Str.lit "buy milk") empty_app).

Definition sample_loads : list (list Event) :=
  [ [ Submit 1 (Some (Str.lit "  buy milk ")); Submit 2 (Some (Str.lit "   "));
      DoubleClick (new_todo 1 (Str.lit "buy milk")); EditInput (Str.lit "  ");
      EditBlur 1 ];
    [ Submit 3 (Some (Str.lit "feed cat")); ToggleAllChange true ] ].

(** ** The rest of what is rendered *)

(** [!editingId]: true for [null], and for the number 0. *)
Definition not_editingId (c : Component) : bool :=
  match editingId c with
  | None => true
  | Some i => (i =? 0)%Z
  end.

(** [editingId === todo.id]. *)
Definition editing (c : Component) (todo : Todo) : bool :=
  match editingId c with
  | None => false
  | Some i => (i =? id todo)%Z
  end.

(** One [li] of the list: its key and class, the toggle (its checked state,
    and whether its style is [display: none]), the label (its text, and the
    same style), the destroy button, and the edit input with its value. *)
Record Row : Type := {
  key : Z;
  className_completed : bool;
  toggle : option (bool * bool);
  label : option (jsstring * bool);
  destroy : bool;
  edit : option jsstring
}.

Definition render_row (c : Component) (todo : Todo) : Row :=
  {| key := id todo;
     className_completed := completed todo;
     toggle := if not_editingId c then Some (completed todo, editing c todo) else None;
     label := if not_editingId c then Some (title todo, editing c todo) else None;
     destroy := true;
     edit := if editing c todo then Some (editValue c) else None |}.

(** The [li]s of the list, when the main section is rendered. *)
Definition rows (c : Component) : option (list Row) :=
  if (0 <? List.length (todos c))%nat
  then Some (map (render_row c) (filteredTodos c))
  else None.

(** ** More notions used in the statements *)

(** [subsequence l' l]: [l'] is [l] with some elements struck out. *)
Inductive subsequence (A : Type) : list A -> list A -> Prop :=
| subsequence_nil : subsequence [] []
| subsequence_keep x l' l : subsequence l' l -> subsequence (x :: l') (x :: l)
| subsequence_drop x l' l : subsequence l' l -> subsequence l' (x :: l).

(** The clock reading a submit brings in, if the event is one that adds. *)
Definition clock_readings (e : Event) : list Z :=
  match e with
  | Submit now _ => [now]
  | _ => []
  end.

(** A title as [trim] leaves it: not empty, nothing to trim. *)
Definition trimmed (s : jsstring) : Prop := Str.trim s = s /\ s <> [].

Definition titles_trimmed (l : list Todo) : Prop :=
  Forall (fun t => trimmed (title t)) l.

(** Events that concern the view only: starting an edit, typing in the edit
    box, a key other than Enter in it, choosing a filter. *)
Definition view_only (e : Event) : bool :=
  match e with
  | DoubleClick _ | EditInput _ | FilterClick _ => true
  | EditKeyDown k _ => negb (Str.eqb k (Str.lit "Enter"))
  | _ => false
  end.

Definition sample_storage : Storage.t :=
  [ (Str.lit "theme", Str.lit "dark"); (LOCAL_STORAGE_KEY, Str.lit "{oops") ].

(** A row that has the edit box. *)
Definition has_edit (r : Row) : bool :=
  match edit r with Some _ => true | None => false end.

(** An edit in progress, with a draft typed. *)
Definition editing_sample : Component :=
  handleEditChange (Str.lit " buy oat milk ") (handleEditStart (new_todo 1 (Str.lit "buy milk")) toggle_sample).

Definition sample_view_events : list Event :=
  [ DoubleClick (new_todo 1 (Str.lit "buy milk")); EditInput (Str.lit "buy oat milk");
    DoubleClick (new_todo 2 (Str.lit "feed cat")); EditKeyDown (Str.lit "Escape") 2;
    FilterClick Completed ].

(** * Properties *)

(** ** Strings and [trim] *)

Module StrFacts.

Lemma eqb_eq (a : jsstring) : forall b, Str.eqb a b = true <-> a = b.
Proof.
  induction a as [|x a IH]; intros [|y b]; simpl; split; try congruence.
  - intros H. apply andb_true_iff in H. destruct H as [H1 H2].
    apply N.eqb_eq in H1. apply IH in H2. congruence.
  - intros [= -> ->]. rewrite N.eqb_refl. now apply IH.
Qed.

Lemma eqb_refl (a : jsstring) : Str.eqb a a = true.
Proof. now apply eqb_eq. Qed.

Lemma truthy_nonempty (s : jsstring) : Str.truthy s = true <-> s <> [].
Proof. destruct s; simpl; split; congruence. Qed.

Lemma trimStart_blank (s : jsstring) : Str.blank s = true -> Str.trimStart s = [].
Proof.
  induction s as [|c r IH]; simpl; [reflexivity|].
  destruct (Str.is_space c); simpl; [exact IH | discriminate].
Qed.

(** What [trimStart] leaves starts with a code unit that is not a space. *)
Lemma trimStart_head (s : jsstring) c r :
  Str.trimStart s = c :: r -> Str.is_space c = false.
Proof.
  induction s as [|a s IH]; simpl; [discriminate|].
  destruct (Str.is_space a) eqn:E; [exact IH|].
  intros [= <- _]. exact E.
Qed.

Lemma trimStart_empty_blank (s : jsstring) :
  Str.trimStart s = [] -> Str.blank s = true.
Proof.
  induction s as [|a s IH]; simpl; [reflexivity|].
  destruct (Str.is_space a); simpl; [exact IH | discriminate].
Qed.

Lemma blank_rev (s : jsstring) : Str.blank (rev s) = Str.blank s.
Proof.
  unfold Str.blank. destruct (forallb Str.is_space s) eqn:E.
  - apply forallb_forall. intros x Hx. apply in_rev in Hx.
    now apply (proj1 (forallb_forall _ _) E).
  - destruct (forallb Str.is_space (rev s)) eqn:E'; [|reflexivity].
    rewrite <- E. symmetry. apply forallb_forall. intros x Hx.
    apply (proj1 (forallb_forall _ _) E'). now apply in_rev in Hx.
Qed.

Lemma blank_app (a b : jsstring) :
  Str.blank (a ++ b) = Str.blank a && Str.blank b.
Proof. unfold Str.blank. apply forallb_app. Qed.

(** A string with a non-space code unit keeps one after [trimStart]. *)
Lemma trimStart_nonblank (s : jsstring) :
  Str.blank s = false -> Str.blank (Str.trimStart s) = false.
Proof.
  induction s as [|a s IH]; simpl; [discriminate|].
  destruct (Str.is_space a) eqn:E; simpl; [exact IH|].
  now rewrite E.
Qed.

(** [trim] gives the empty string exactly on the strings that are empty or
    all white space. *)
Lemma trim_blank (s : jsstring) : Str.blank s = true -> Str.trim s = [].
Proof.
  intros H. unfold Str.trim, Str.trimEnd.
  now rewrite (trimStart_blank _ H).
Qed.

Lemma trim_nonblank (s : jsstring) :
  Str.blank s = false -> Str.blank (Str.trim s) = false.
Proof.
  intros H. unfold Str.trim, Str.trimEnd.
  rewrite blank_rev. apply trimStart_nonblank.
  rewrite blank_rev. now apply trimStart_nonblank.
Qed.

Lemma truthy_trim (s : jsstring) :
  Str.truthy (Str.trim s) = negb (Str.blank s).
Proof.
  destruct (Str.blank s) eqn:E; simpl.
  - now rewrite (trim_blank _ E).
  - apply trim_nonblank in E. destruct (Str.trim s); [discriminate|reflexivity].
Qed.

(** A title that went through [trim] and is not empty is not blank. *)
Lemma trim_truthy_not_blank (s : jsstring) :
  Str.truthy (Str.trim s) = true -> Str.blank (Str.trim s) = false.
Proof.
  rewrite truthy_trim. intros H. apply trim_nonblank.
  now destruct (Str.blank s).
Qed.

(** [trim] strips nothing from what it returned. *)
Lemma trimStart_fixed (s : jsstring) c r :
  s = c :: r -> Str.is_space c = false -> Str.trimStart s = s.
Proof. intros -> H. simpl. now rewrite H. Qed.

Lemma trimStart_idem (s : jsstring) : Str.trimStart (Str.trimStart s) = Str.trimStart s.
Proof.
  destruct (Str.trimStart s) as [|c r] eqn:E; [reflexivity|].
  eapply trimStart_fixed; [reflexivity|]. eapply trimStart_head; eassumption.
Qed.

End StrFacts.

(** ** JSON: the reader's fuel *)

Module Fuel.
Import JSON.
Local Open Scope nat_scope.

Lemma skip_ws_length s : List.length (skip_ws s) <= List.length s.
Proof.
  induction s as [|c r IH]; simpl; [lia|].
  destruct (is_ws c); simpl; lia.
Qed.

Lemma skip_ws_cons_length s c r : skip_ws s = c :: r -> S (List.length r) <= List.length s.
Proof. intros H. pose proof (skip_ws_length s) as L. rewrite H in L. exact L. Qed.

Lemma parse_chars_length n : forall s cs rest,
  List.length s <= n -> parse_chars s = Some (cs, rest) -> List.length rest < List.length s.
Proof.
  induction n as [|n IH]; intros s cs rest Hn H.
  - destruct s; [discriminate | simpl in Hn; lia].
  - destruct s as [|c r]; [discriminate|].
    simpl in Hn. cbn [parse_chars] in H.
    destruct (N.eqb c QUOTE); [injection H as _ <-; simpl; lia|].
    destruct (N.eqb c BACKSLASH).
    + destruct r as [|e r1]; [discriminate|].
      destruct (N.eqb e 117).
      * destruct r1 as [|h3 [|h2 [|h1 [|h0 r2]]]]; try discriminate.
        destruct (hex4_value h3 h2 h1 h0); [|discriminate].
        destruct (parse_chars r2) as [[cs' rest']|] eqn:E; [|discriminate].
        injection H as _ <-. apply IH in E; simpl in *; lia.
      * destruct (unescape e); [|discriminate].
        destruct (parse_chars r1) as [[cs' rest']|] eqn:E; [|discriminate].
        injection H as _ <-. apply IH in E; simpl in *; lia.
    + destruct (N.ltb c 32); [discriminate|].
      destruct (parse_chars r) as [[cs' rest']|] eqn:E; [|discriminate].
      injection H as _ <-. apply IH in E; simpl in *; lia.
Qed.

Lemma take_digits_length s : forall ds rest,
  take_digits s = (ds, rest) -> List.length ds + List.length rest = List.length s.
Proof.
  induction s as [|c r IH]; intros ds rest H; simpl in H.
  - injection H as <- <-. reflexivity.
  - destruct (is_digit c).
    + destruct (take_digits r) as [ds' rest'] eqn:E. injection H as <- <-.
      simpl. rewrite <- (IH _ _ eq_refl). lia.
    + injection H as <- <-. reflexivity.
Qed.

Lemma parse_int_part_length s int rest :
  parse_int_part s = Some (int, rest) -> List.length rest < List.length s.
Proof.
  unfold parse_int_part. destruct s as [|c r]; [discriminate|].
  destruct (N.eqb c ZERO); [intros [= <- <-]; simpl; lia|].
  destruct (is_digit c) eqn:Hd; [|discriminate].
  intros [= H]. cbn [take_digits] in H. rewrite Hd in H.
  destruct (take_digits r) as [ds' rest'] eqn:E. injection H as <- <-.
  apply take_digits_length in E. simpl. lia.
Qed.

Lemma parse_frac_part_length s frac rest :
  parse_frac_part s = Some (frac, rest) -> List.length rest <= List.length s.
Proof.
  unfold parse_frac_part. destruct s as [|c r]; [intros [= <- <-]; lia|].
  destruct (N.eqb c DOT); [|intros [= <- <-]; lia].
  destruct (take_digits r) as [ds rest'] eqn:E.
  apply take_digits_length in E.
  destruct ds; [discriminate|]. intros [= <- <-]. simpl in *. lia.
Qed.

Lemma parse_exp_part_length s exp rest :
  parse_exp_part s = Some (exp, rest) -> List.length rest <= List.length s.
Proof.
  unfold parse_exp_part. destruct s as [|c r]; [intros [= <- <-]; lia|].
  destruct (N.eqb c 101 || N.eqb c 69); [|intros [= <- <-]; lia].
  assert (H : forall sign r1, List.length r1 <= List.length r ->
            match take_digits r1 with
            | ([], _) => None
            | (ds, rest0) => Some (c :: sign ++ ds, rest0)
            end = Some (exp, rest) -> List.length rest <= List.length (c :: r)).
  { intros sign r1 Hr1. destruct (take_digits r1) as [ds rest'] eqn:E.
    apply take_digits_length in E.
    destruct ds; [discriminate|]. intros [= <- <-]. simpl in *. lia. }
  destruct r as [|g r'].
  - apply H. lia.
  - destruct (N.eqb g PLUS || N.eqb g MINUS); apply H; simpl; lia.
Qed.

Lemma parse_magnitude_length neg s n rest :
  parse_magnitude neg s = Some (n, rest) -> List.length rest < List.length s.
Proof.
  unfold parse_magnitude.
  destruct (parse_int_part s) as [[int s2]|] eqn:E1; [|discriminate].
  destruct (parse_frac_part s2) as [[frac s3]|] eqn:E2; [|discriminate].
  destruct (parse_exp_part s3) as [[exp s4]|] eqn:E3; [|discriminate].
  apply parse_int_part_length in E1. apply parse_frac_part_length in E2.
  apply parse_exp_part_length in E3.
  intros H. assert (rest = s4) by (destruct frac, exp; now injection H). subst. lia.
Qed.

Lemma parse_number_length s n rest :
  parse_number s = Some (n, rest) -> List.length rest < List.length s.
Proof.
  unfold parse_number. destruct s as [|c r]; [discriminate|].
  destruct (N.eqb c MINUS); intros H; apply parse_magnitude_length in H; simpl in *; lia.
Qed.

Lemma strip_prefix_length p : forall s rest,
  strip_prefix p s = Some rest -> List.length rest + List.length p = List.length s.
Proof.
  induction p as [|a p IH]; intros s rest H; simpl in H.
  - injection H as <-. simpl. lia.
  - destruct s as [|b s]; [discriminate|].
    destruct (N.eqb a b); [|discriminate]. apply IH in H. simpl. lia.
Qed.


Local Open Scope N_scope.

Lemma parse_value_S f s :
  parse_value (S f) s =
      match s with
      | [] => Malformed
      | c :: r =>
          if c =? QUOTE then
            match parse_chars r with
            | Some (cs, rest) => Parsed (String cs) rest
            | None => Malformed
            end
          else if c =? LBRACKET then
            match skip_ws r with
            | c1 :: r1 =>
                if c1 =? RBRACKET then Parsed (Array []) r1
                else
                  match parse_elements f (c1 :: r1) with
                  | Parsed vs rest => Parsed (Array vs) rest
                  | Malformed => Malformed
                  | OutOfFuel => OutOfFuel
                  end
            | [] => Malformed
            end
          else if c =? LBRACE then
            match skip_ws r with
            | c1 :: r1 =>
                if c1 =? RBRACE then Parsed (Object []) r1
                else
                  match parse_members f (c1 :: r1) with
                  | Parsed ms rest => Parsed (make_object ms) rest
                  | Malformed => Malformed
                  | OutOfFuel => OutOfFuel
                  end
            | [] => Malformed
            end
          else if (c =? MINUS) || is_digit c then
            match parse_number s with
            | Some (n, rest) => Parsed (Num n) rest
            | None => Malformed
            end
          else
            match strip_prefix (Str.lit "null") s,
                  strip_prefix (Str.lit "true") s,
                  strip_prefix (Str.lit "false") s with
            | Some rest, _, _ => Parsed Null rest
            | _, Some rest, _ => Parsed (Bool true) rest
            | _, _, Some rest => Parsed (Bool false) rest
            | None, None, None => Malformed
            end
      end.
Proof. reflexivity. Qed.

Lemma parse_elements_S f s :
  parse_elements (S f) s =
      match parse_value f s with
      | Parsed v rest =>
          match skip_ws rest with
          | c :: r =>
              if c =? COMMA then
                match parse_elements f (skip_ws r) with
                | Parsed vs rest' => Parsed (v :: vs) rest'
                | Malformed => Malformed
                | OutOfFuel => OutOfFuel
                end
              else if c =? RBRACKET then Parsed [v] r
              else Malformed
          | [] => Malformed
          end
      | Malformed => Malformed
      | OutOfFuel => OutOfFuel
      end.
Proof. reflexivity. Qed.

Lemma parse_members_S f s :
  parse_members (S f) s =
      match s with
      | c :: r =>
          if c =? QUOTE then
            match parse_chars r with
            | Some (k, r1) =>
                match skip_ws r1 with
                | c2 :: r2 =>
                    if c2 =? COLON then
                      match parse_value f (skip_ws r2) with
                      | Parsed v rest =>
                          match skip_ws rest with
                          | c3 :: r3 =>
                              if c3 =? COMMA then
                                match parse_members f (skip_ws r3) with
                                | Parsed ms rest' => Parsed ((k, v) :: ms) rest'
                                | Malformed => Malformed
                                | OutOfFuel => OutOfFuel
                                end
                              else if c3 =? RBRACE then Parsed [(k, v)] r3
                              else Malformed
                          | [] => Malformed
                          end
                      | Malformed => Malformed
                      | OutOfFuel => OutOfFuel
                      end
                    else Malformed
                | [] => Malformed
                end
            | None => Malformed
            end
          else Malformed
      | [] => Malformed
      end.
Proof. reflexivity. Qed.

Local Open Scope nat_scope.

(** A term with no test left inside it. *)
Ltac plain x :=
  lazymatch x with
  | context [if _ then _ else _] => fail
  | context [match _ with _ => _ end] => fail
  | _ => idtac
  end.

(** A term that calls none of the three readers. *)
Ltac reader_free x :=
  lazymatch x with
  | context [parse_value] => fail
  | context [parse_elements] => fail
  | context [parse_members] => fail
  | _ => idtac
  end.

(** Case analysis on the innermost test of a hypothesis. *)
Ltac step_in H :=
  match type of H with
  | context [if ?b then _ else _] => plain b; destruct b eqn:?
  | context [match ?x with _ => _ end] => plain x; destruct x eqn:?
  end.

Ltac lengths :=
  repeat match goal with
    | H : skip_ws _ = _ :: _ |- _ => apply skip_ws_cons_length in H
    | H : parse_chars _ = Some _ |- _ => apply (@parse_chars_length _ _ _ _ (le_n _)) in H
    | H : parse_number _ = Some _ |- _ => apply parse_number_length in H
    | H : strip_prefix _ _ = Some _ |- _ => apply strip_prefix_length in H
    end.

(** Every reader consumes at least one code unit. *)
Lemma parse_consumes f :
  (forall s v rest, parse_value f s = Parsed v rest -> List.length rest < List.length s)
  /\ (forall s vs rest, parse_elements f s = Parsed vs rest -> List.length rest < List.length s)
  /\ (forall s ms rest, parse_members f s = Parsed ms rest -> List.length rest < List.length s).
Proof.
  induction f as [|f [IHv [IHe IHm]]]; [repeat split; discriminate|].
  assert (Hv : forall s v rest, parse_value (S f) s = Parsed v rest -> List.length rest < List.length s).
  { intros s v rest H. cbn [parse_value] in H.
    repeat (step_in H; try discriminate);
      try (injection H as <- <-); lengths;
      repeat match goal with
        | E : parse_elements f _ = Parsed _ _ |- _ => apply IHe in E
        | E : parse_members f _ = Parsed _ _ |- _ => apply IHm in E
        end; simpl in *; try lia. }
  assert (He : forall s vs rest, parse_elements (S f) s = Parsed vs rest -> List.length rest < List.length s).
  { intros s vs rest H. cbn [parse_elements] in H.
    repeat (step_in H; try discriminate);
      try (injection H as <- <-); lengths;
      repeat match goal with
        | E : parse_value f _ = Parsed _ _ |- _ => apply IHv in E
        | E : parse_elements f _ = Parsed _ _ |- _ => apply IHe in E
        end;
      repeat match goal with
        | E : context [List.length (skip_ws ?x)] |- _ =>
            lazymatch goal with
            | _ : List.length (skip_ws x) <= List.length x |- _ => fail
            | _ => pose proof (skip_ws_length x)
            end
        end; simpl in *; try lia. }
  assert (Hm : forall s ms rest, parse_members (S f) s = Parsed ms rest -> List.length rest < List.length s).
  { intros s ms rest H. cbn [parse_members] in H.
    repeat (step_in H; try discriminate);
      try (injection H as <- <-); lengths;
      repeat match goal with
        | E : parse_value f _ = Parsed _ _ |- _ => apply IHv in E
        | E : parse_members f _ = Parsed _ _ |- _ => apply IHm in E
        end;
      repeat match goal with
        | E : context [List.length (skip_ws ?x)] |- _ =>
            lazymatch goal with
            | _ : List.length (skip_ws x) <= List.length x |- _ => fail
            | _ => pose proof (skip_ws_length x)
            end
        end; simpl in *; try lia. }
  auto.
Qed.


(** Case analysis on the innermost test of the goal that waits for no
    reader. *)
Ltac step_goal :=
  match goal with
  | |- context [if ?b then _ else _] => plain b; destruct b eqn:?
  | |- context [match ?x with _ => _ end] =>
      plain x; reader_free x; destruct x eqn:?
  end.

Ltac skip_lengths :=
  repeat match goal with
    | E : context [List.length (skip_ws ?x)] |- _ =>
        lazymatch goal with
        | _ : List.length (skip_ws x) <= List.length x |- _ => fail
        | _ => pose proof (skip_ws_length x)
        end
    | |- context [List.length (skip_ws ?x)] =>
        lazymatch goal with
        | _ : List.length (skip_ws x) <= List.length x |- _ => fail
        | _ => pose proof (skip_ws_length x)
        end
    end.

(** Fuel of twice the length of the text, and two, is never used up. *)
Lemma parse_fuel_enough f :
  (forall s, 2 * List.length s + 1 <= f -> parse_value f s <> OutOfFuel)
  /\ (forall s, 2 * List.length s + 2 <= f -> parse_elements f s <> OutOfFuel)
  /\ (forall s, 2 * List.length s + 2 <= f -> parse_members f s <> OutOfFuel).
Proof.
  induction f as [|f [IHv [IHe IHm]]].
  { repeat split; intros s H; lia. }
  destruct (parse_consumes f) as [Cv [Ce Cm]].
  repeat split; intros s Hf H.
  - cbn [parse_value] in H.
    repeat (step_in H; try discriminate); lengths;
      match goal with
      | E : parse_elements f ?x = OutOfFuel |- _ => apply (IHe x); [simpl in *; lia | exact E]
      | E : parse_members f ?x = OutOfFuel |- _ => apply (IHm x); [simpl in *; lia | exact E]
      end.
  - cbn [parse_elements] in H.
    repeat (step_in H; try discriminate); lengths;
      repeat match goal with
        | E : parse_value f _ = Parsed _ _ |- _ => apply Cv in E
        end;
      match goal with
      | E : parse_value f ?x = OutOfFuel |- _ => apply (IHv x); [simpl in *; lia | exact E]
      | E : parse_elements f ?x = OutOfFuel |- _ =>
          apply (IHe x); [skip_lengths; simpl in *; lia | exact E]
      end.
  - cbn [parse_members] in H.
    repeat (step_in H; try discriminate); lengths;
      repeat match goal with
        | E : parse_value f _ = Parsed _ _ |- _ => apply Cv in E
        end;
      match goal with
      | E : parse_value f ?x = OutOfFuel |- _ =>
          apply (IHv x); [skip_lengths; simpl in *; lia | exact E]
      | E : parse_members f ?x = OutOfFuel |- _ =>
          apply (IHm x); [skip_lengths; simpl in *; lia | exact E]
      end.
Qed.

(** [JSON.parse] throws on malformed text only: its reader never stops for
    want of fuel. *)
Lemma parse_never_out_of_fuel text :
  parse_value (fuel_for text) (skip_ws text) <> OutOfFuel.
Proof.
  apply (proj1 (parse_fuel_enough (fuel_for text))).
  unfold fuel_for. pose proof (skip_ws_length text). lia.
Qed.


Ltac more_fuel IHv IHe IHm f H :=
  match goal with
  | |- context [parse_value (S f) ?x] =>
      let E := fresh "E" in
      destruct (parse_value f x) eqn:E;
      [ rewrite (IHv x) by (rewrite E; discriminate); rewrite E
      | rewrite (IHv x) by (rewrite E; discriminate); rewrite E
      | exfalso; apply H; reflexivity ]
  | |- context [parse_elements (S f) ?x] =>
      let E := fresh "E" in
      destruct (parse_elements f x) eqn:E;
      [ rewrite (IHe x) by (rewrite E; discriminate); rewrite E
      | rewrite (IHe x) by (rewrite E; discriminate); rewrite E
      | exfalso; apply H; reflexivity ]
  | |- context [parse_members (S f) ?x] =>
      let E := fresh "E" in
      destruct (parse_members f x) eqn:E;
      [ rewrite (IHm x) by (rewrite E; discriminate); rewrite E
      | rewrite (IHm x) by (rewrite E; discriminate); rewrite E
      | exfalso; apply H; reflexivity ]
  end.

(** Once a reader has fuel enough to answer, more fuel gives the same answer. *)
Lemma parse_fuel_stable f :
  (forall s, parse_value f s <> OutOfFuel -> parse_value (S f) s = parse_value f s)
  /\ (forall s, parse_elements f s <> OutOfFuel ->
                parse_elements (S f) s = parse_elements f s)
  /\ (forall s, parse_members f s <> OutOfFuel ->
                parse_members (S f) s = parse_members f s).
Proof.
  induction f as [|f [IHv [IHe IHm]]].
  { repeat split; intros s H; exfalso; apply H; reflexivity. }
  repeat split; intros s H.
  - rewrite parse_value_S in H. rewrite (parse_value_S (S f)), (parse_value_S f).
    repeat (first [ progress (repeat (step_goal; try reflexivity))
                  | more_fuel IHv IHe IHm f H ]; try reflexivity).
  - rewrite parse_elements_S in H. rewrite (parse_elements_S (S f)), (parse_elements_S f).
    repeat (first [ progress (repeat (step_goal; try reflexivity))
                  | more_fuel IHv IHe IHm f H ]; try reflexivity).
  - rewrite parse_members_S in H. rewrite (parse_members_S (S f)), (parse_members_S f).
    repeat (first [ progress (repeat (step_goal; try reflexivity))
                  | more_fuel IHv IHe IHm f H ]; try reflexivity).
Qed.

(** More fuel than [JSON.parse] takes changes nothing. *)
Lemma parse_fuel_irrelevant text k :
  parse_value (fuel_for text + k) (skip_ws text) =
  parse_value (fuel_for text) (skip_ws text).
Proof.
  induction k as [|k IH].
  - now rewrite Nat.add_0_r.
  - rewrite Nat.add_succ_r, <- IH.
    apply (proj1 (parse_fuel_stable (fuel_for text + k))).
    rewrite IH. apply parse_never_out_of_fuel.
Qed.

End Fuel.

(** ** JSON: what is written is read back *)

Module JSONFacts.
Import JSON.
Local Open Scope N_scope.

(** *** Decimal digits *)

Lemma digits_value_rev ds : digits_value (rev ds) = value_le ds.
Proof.
  unfold digits_value, value_le. rewrite <- fold_left_rev_right, rev_involutive.
  reflexivity.
Qed.

Lemma div10_lt_pow2 f n : n < 2 ^ N.of_nat (S f) -> n / 10 < 2 ^ N.of_nat f.
Proof.
  intros H. rewrite Nat2N.inj_succ, N.pow_succ_r' in H.
  apply N.Div0.div_lt_upper_bound. lia.
Qed.

Lemma value_le_cons d ds : value_le (d :: ds) = 10 * value_le ds + (d - 48).
Proof. reflexivity. Qed.

Lemma digits_le_S f n :
  digits_le (S f) n =
  (48 + n mod 10) :: (if n / 10 =? 0 then [] else digits_le f (n / 10)).
Proof. reflexivity. Qed.

Lemma digits_le_value f : forall n,
  n < 2 ^ N.of_nat f -> value_le (digits_le (S f) n) = n.
Proof.
  induction f as [|f IH]; intros n Hn.
  - simpl in Hn. assert (n = 0) by lia. subst. reflexivity.
  - rewrite digits_le_S, value_le_cons.
    pose proof (N.div_mod n 10 ltac:(lia)) as Hdm.
    destruct (n / 10 =? 0) eqn:E.
    + apply N.eqb_eq in E. change (value_le []) with 0.
      clear - Hdm E. set (q := n / 10) in *. set (r := n mod 10) in *.
      clearbody q r. lia.
    + rewrite IH by (now apply div10_lt_pow2).
      clear - Hdm. set (q := n / 10) in *. set (r := n mod 10) in *.
      clearbody q r. lia.
Qed.

Lemma digits_le_digits f : forall n, Forall (fun d => is_digit d = true) (digits_le f n).
Proof.
  induction f as [|f IH]; intros n; [constructor|].
  rewrite digits_le_S. constructor.
  - unfold is_digit. pose proof (N.mod_lt n 10 ltac:(lia)) as H.
    set (r := n mod 10) in *. clearbody r.
    apply andb_true_iff. split; apply N.leb_le; lia.
  - destruct (n / 10 =? 0); [constructor | apply IH].
Qed.


Lemma digits_le_last f : forall n,
  n < 2 ^ N.of_nat f -> n <> 0 ->
  exists ds d, digits_le (S f) n = ds ++ [d] /\ d <> 48.
Proof.
  induction f as [|f IH]; intros n Hn Hn0.
  - simpl in Hn. lia.
  - rewrite digits_le_S.
    pose proof (N.div_mod n 10 ltac:(lia)) as Hdm.
    destruct (n / 10 =? 0) eqn:E.
    + exists [], (48 + n mod 10). split; [reflexivity|].
      apply N.eqb_eq in E.
      set (q := n / 10) in *. set (r := n mod 10) in *. clearbody q r. lia.
    + apply N.eqb_neq in E.
      destruct (IH (n / 10)) as [ds [d [Hds Hd]]];
        [now apply div10_lt_pow2 | exact E |].
      exists ((48 + n mod 10) :: ds), d. rewrite Hds. split; [reflexivity|exact Hd].
Qed.

Lemma size_bound n : n < 2 ^ N.of_nat (N.to_nat (N.size n)).
Proof. rewrite N2Nat.id. apply N.size_gt. Qed.

(** [decimal n] is a non-empty run of digits whose value is [n], and it
    starts with 0 only when it is the single digit 0. *)
Lemma decimal_spec n :
  exists d ds,
    decimal n = d :: ds
    /\ Forall (fun c => is_digit c = true) (d :: ds)
    /\ digits_value (d :: ds) = n
    /\ (d = 48 -> ds = []).
Proof.
  unfold decimal.
  pose proof (@digits_le_value _ n (size_bound n)) as Hv.
  pose proof (digits_le_digits (S (N.to_nat (N.size n))) n) as Hd.
  rewrite <- digits_value_rev in Hv.
  apply Forall_rev in Hd.
  destruct (N.eq_dec n 0) as [->|Hn0].
  - exists 48, []. repeat split; try reflexivity. repeat constructor.
  - destruct (@digits_le_last _ n (size_bound n) Hn0) as [ds [d [E Hne]]].
    rewrite E in *. rewrite rev_app_distr in *. simpl in *.
    exists d, (rev ds). repeat split; auto. intros; contradiction.
Qed.

(** *** Reading a number back *)

Lemma skip_ws_cons c r : is_ws c = false -> skip_ws (c :: r) = c :: r.
Proof. intros H. simpl. now rewrite H. Qed.

Lemma take_digits_app ds : forall c r,
  Forall (fun c => is_digit c = true) ds -> is_digit c = false ->
  take_digits (ds ++ c :: r) = (ds, c :: r).
Proof.
  induction ds as [|d ds IH]; intros c r Hds Hc; simpl.
  - now rewrite Hc.
  - inversion Hds as [|x xs Hd Hds']; subst.
    rewrite Hd, IH; auto.
Qed.

Lemma parse_int_part_decimal n c r :
  is_digit c = false ->
  parse_int_part (decimal n ++ c :: r) = Some (decimal n, c :: r).
Proof.
  intros Hc. destruct (decimal_spec n) as [d [ds [E [Hds [_ Hz]]]]].
  rewrite E. simpl app. unfold parse_int_part.
  destruct (d =? ZERO) eqn:Ed.
  - apply N.eqb_eq in Ed. rewrite (Hz Ed). reflexivity.
  - inversion Hds as [|x xs Hd Hds']; subst. rewrite Hd.
    change (d :: ds ++ c :: r) with ((d :: ds) ++ c :: r).
    now rewrite take_digits_app.
Qed.

Lemma parse_magnitude_decimal (neg : bool) n r :
  parse_magnitude neg (decimal n ++ COMMA :: r) =
  Some (Integer (if neg then - Z.of_N n else Z.of_N n)%Z, COMMA :: r).
Proof.
  destruct (decimal_spec n) as [d [ds [E [_ [Hv _]]]]].
  unfold parse_magnitude.
  rewrite parse_int_part_decimal by reflexivity.
  simpl. rewrite E, Hv. reflexivity.
Qed.

Lemma decimal_head n :
  exists d ds, decimal n = d :: ds /\ is_digit d = true.
Proof.
  destruct (decimal_spec n) as [d [ds [E [Hds _]]]].
  exists d, ds. split; [exact E|]. now inversion Hds.
Qed.

Lemma digit_not_minus d : is_digit d = true -> (d =? MINUS) = false.
Proof.
  unfold is_digit, MINUS. intros H. apply andb_true_iff in H.
  destruct H as [H _]. apply N.leb_le in H. apply N.eqb_neq. lia.
Qed.

Lemma parse_number_decimal (neg : bool) n r :
  parse_number ((if neg then [MINUS] else []) ++ decimal n ++ COMMA :: r) =
  Some (Integer (if neg then - Z.of_N n else Z.of_N n)%Z, COMMA :: r).
Proof.
  destruct neg.
  - change (parse_magnitude true (decimal n ++ COMMA :: r) = Some (Integer (- Z.of_N n)%Z, COMMA :: r)).
    apply parse_magnitude_decimal.
  - rewrite <- (parse_magnitude_decimal false).
    destruct (decimal_head n) as [d [ds [E Hd]]].
    rewrite E. simpl app. unfold parse_number. now rewrite (@digit_not_minus d Hd).
Qed.

Lemma number_to_string_signed z :
  number_to_string z =
  (if (z <? 0)%Z then [MINUS] else []) ++ decimal (Z.abs_N z).
Proof. unfold number_to_string. now destruct (z <? 0)%Z. Qed.

Lemma parse_number_to_string z r :
  parse_number (number_to_string z ++ COMMA :: r) = Some (Integer z, COMMA :: r).
Proof.
  rewrite number_to_string_signed, <- app_assoc, parse_number_decimal.
  do 3 f_equal. destruct (z <? 0)%Z eqn:E.
  - apply Z.ltb_lt in E. lia.
  - apply Z.ltb_ge in E. lia.
Qed.


(** *** Reading a quoted string back *)

Lemma hex_value_digit n : n < 16 -> hex_value (hex_digit n) = Some n.
Proof.
  intros H. destruct n as [|p]; [reflexivity|].
  do 4 (try destruct p as [p|p|]); try reflexivity; exfalso; lia.
Qed.

Lemma hex_split c :
  4096 * (c / 4096) + 256 * ((c / 256) mod 16) + 16 * ((c / 16) mod 16) + c mod 16 = c.
Proof.
  assert (E1 : c / 16 / 16 = c / 256) by (rewrite N.Div0.div_div; reflexivity).
  assert (E2 : c / 256 / 16 = c / 4096) by (rewrite N.Div0.div_div; reflexivity).
  pose proof (N.div_mod c 16 ltac:(lia)) as H0.
  pose proof (N.div_mod (c / 16) 16 ltac:(lia)) as H1.
  pose proof (N.div_mod (c / 256) 16 ltac:(lia)) as H2.
  rewrite E1 in H1. rewrite E2 in H2. clear E1 E2.
  set (q1 := c / 16) in *. set (q2 := c / 256) in *. set (q3 := c / 4096) in *.
  set (r0 := c mod 16) in *. set (r1 := q1 mod 16) in *. set (r2 := q2 mod 16) in *.
  clearbody q1 q2 q3 r0 r1 r2. lia.
Qed.

Lemma hex4_value_escape c :
  c < 65536 ->
  hex4_value (hex_digit (c / 4096)) (hex_digit ((c / 256) mod 16))
    (hex_digit ((c / 16) mod 16)) (hex_digit (c mod 16)) = Some c.
Proof.
  intros H. unfold hex4_value.
  rewrite !hex_value_digit.
  - now rewrite hex_split.
  - apply N.mod_lt. lia.
  - apply N.mod_lt. lia.
  - apply N.mod_lt. lia.
  - apply N.Div0.div_lt_upper_bound. lia.
Qed.

Lemma parse_chars_unicode_escape c s cs rest :
  c < 65536 ->
  parse_chars s = Some (cs, rest) ->
  parse_chars (unicode_escape c ++ s) = Some (c :: cs, rest).
Proof.
  intros Hc Hs. unfold unicode_escape.
  change (parse_chars ([BACKSLASH; 117; hex_digit (c / 4096); hex_digit ((c / 256) mod 16);
                        hex_digit ((c / 16) mod 16); hex_digit (c mod 16)] ++ s))
    with (match hex4_value (hex_digit (c / 4096)) (hex_digit ((c / 256) mod 16))
                  (hex_digit ((c / 16) mod 16)) (hex_digit (c mod 16)), parse_chars s with
          | Some u, Some (cs, rest) => Some (u :: cs, rest)
          | _, _ => None
          end).
  now rewrite hex4_value_escape, Hs.
Qed.

Lemma parse_chars_escape_letter c e s cs rest :
  escape_letter c = Some e ->
  parse_chars s = Some (cs, rest) ->
  parse_chars (BACKSLASH :: e :: s) = Some (c :: cs, rest).
Proof.
  intros He Hs.
  assert (H : (e =? 117) = false /\ unescape e = Some c).
  { unfold escape_letter in He.
    repeat match type of He with
           | (if ?b then _ else _) = _ =>
               let E := fresh "E" in
               destruct b eqn:E;
               [apply N.eqb_eq in E; injection He as <-; subst c; split; reflexivity|]
           end.
    discriminate. }
  destruct H as [Hu Hun].
  change (parse_chars (BACKSLASH :: e :: s))
    with (if e =? 117 then
            match s with
            | h3 :: h2 :: h1 :: h0 :: r2 =>
                match hex4_value h3 h2 h1 h0, parse_chars r2 with
                | Some u, Some (cs, rest) => Some (u :: cs, rest)
                | _, _ => None
                end
            | _ => None
            end
          else
            match unescape e, parse_chars s with
            | Some u, Some (cs, rest) => Some (u :: cs, rest)
            | _, _ => None
            end).
  now rewrite Hu, Hun, Hs.
Qed.

Lemma parse_chars_plain c s cs rest :
  (c =? QUOTE) = false -> (c =? BACKSLASH) = false -> (c <? 32) = false ->
  parse_chars s = Some (cs, rest) ->
  parse_chars (c :: s) = Some (c :: cs, rest).
Proof. intros H1 H2 H3 Hs. simpl. now rewrite H1, H2, H3, Hs. Qed.

Lemma escape_letter_none c :
  escape_letter c = None -> (c =? QUOTE) = false /\ (c =? BACKSLASH) = false.
Proof.
  unfold escape_letter. intros H.
  repeat match type of H with
         | (if ?b then _ else _) = _ => destruct b; [discriminate|]
         end.
  split; reflexivity.
Qed.

Lemma surrogate_facts c :
  is_leading_surrogate c = true \/ is_trailing_surrogate c = true ->
  c < 65536 /\ (c =? QUOTE) = false /\ (c =? BACKSLASH) = false /\ (c <? 32) = false.
Proof.
  unfold is_leading_surrogate, is_trailing_surrogate, QUOTE, BACKSLASH.
  intros [H|H]; apply andb_true_iff in H; destruct H as [H1 H2];
    apply N.leb_le in H1; apply N.leb_le in H2;
    (split; [lia|split; [apply N.eqb_neq; lia|split; [apply N.eqb_neq; lia|apply N.ltb_ge; lia]]]).
Qed.

Lemma quote_chars_cons c r :
  quote_chars (c :: r) =
  match escape_letter c with
  | Some e => BACKSLASH :: e :: quote_chars r
  | None =>
      if c <? 32 then unicode_escape c ++ quote_chars r
      else if is_leading_surrogate c then
        match r with
        | d :: r' =>
            if is_trailing_surrogate d then c :: d :: quote_chars r'
            else unicode_escape c ++ quote_chars r
        | [] => unicode_escape c
        end
      else if is_trailing_surrogate c then unicode_escape c ++ quote_chars r
      else c :: quote_chars r
  end.
Proof. destruct r; reflexivity. Qed.

Lemma parse_chars_quote_chars_len n : forall s rest,
  (List.length s <= n)%nat ->
  parse_chars (quote_chars s ++ QUOTE :: rest) = Some (s, rest).
Proof.
  induction n as [|n IH]; intros s rest Hlen.
  - destruct s; [reflexivity | simpl in Hlen; lia].
  - destruct s as [|c r]; [reflexivity|].
    simpl in Hlen. assert (Hr : (List.length r <= n)%nat) by lia.
    rewrite quote_chars_cons.
    destruct (escape_letter c) as [e|] eqn:Ee.
    { simpl app. eapply parse_chars_escape_letter; [exact Ee|]. now apply IH. }
    destruct (escape_letter_none _ Ee) as [Hq Hb].
    destruct (c <? 32) eqn:Elt.
    { rewrite <- app_assoc. apply parse_chars_unicode_escape; [|now apply IH].
      apply N.ltb_lt in Elt. lia. }
    destruct (is_leading_surrogate c) eqn:El.
    { destruct (surrogate_facts c (or_introl El)) as [Hc _].
      destruct r as [|d r'].
      - apply parse_chars_unicode_escape; [exact Hc | reflexivity].
      - destruct (is_trailing_surrogate d) eqn:Et.
        + destruct (surrogate_facts d (or_intror Et)) as [_ [Hdq [Hdb Hdl]]].
          simpl app. apply parse_chars_plain; auto. apply parse_chars_plain; auto.
          apply IH. simpl in Hr. lia.
        + rewrite <- app_assoc. apply parse_chars_unicode_escape; [exact Hc|now apply IH]. }
    destruct (is_trailing_surrogate c) eqn:Et.
    { destruct (surrogate_facts c (or_intror Et)) as [Hc _].
      rewrite <- app_assoc. apply parse_chars_unicode_escape; [exact Hc|now apply IH]. }
    simpl app. apply parse_chars_plain; auto.
Qed.

(** What [quote] writes, [parse_chars] reads back, whatever the string. *)
Lemma parse_chars_quote_chars s rest :
  parse_chars (quote_chars s ++ QUOTE :: rest) = Some (s, rest).
Proof. now apply (@parse_chars_quote_chars_len (List.length s)). Qed.


(** *** Reading the values of a todo back *)

Lemma quote_app s r : quote s ++ r = QUOTE :: quote_chars s ++ QUOTE :: r.
Proof. unfold quote. simpl. now rewrite <- app_assoc. Qed.

Lemma parse_value_quote f s r :
  parse_value (S f) (quote s ++ r) = Parsed (String s) r.
Proof.
  rewrite quote_app, Fuel.parse_value_S.
  cbv beta iota. change (QUOTE =? QUOTE) with true. cbv beta iota.
  now rewrite parse_chars_quote_chars.
Qed.

Lemma parse_value_bool f b r :
  parse_value (S f) (serialize_bool b ++ r) = Parsed (Bool b) r.
Proof. destruct b; reflexivity. Qed.

Lemma number_to_string_head z :
  exists c cs, number_to_string z = c :: cs /\ ((c =? MINUS) || is_digit c = true).
Proof.
  unfold number_to_string. destruct (z <? 0)%Z.
  - exists MINUS, (decimal (Z.abs_N z)). split; reflexivity.
  - destruct (decimal_head (Z.abs_N z)) as [d [ds [E Hd]]].
    exists d, ds. split; [exact E|]. rewrite Hd. apply orb_true_r.
Qed.

Lemma number_start_facts c :
  (c =? MINUS) || is_digit c = true ->
  (c =? QUOTE) = false /\ (c =? LBRACKET) = false /\ (c =? LBRACE) = false
  /\ is_ws c = false.
Proof.
  unfold is_digit, is_ws, MINUS, QUOTE, LBRACKET, LBRACE. intros H.
  assert (Hc : 45 <= c <= 57).
  { apply orb_true_iff in H. destruct H as [H|H].
    - apply N.eqb_eq in H. lia.
    - apply andb_true_iff in H. destruct H as [H1 H2].
      apply N.leb_le in H1. apply N.leb_le in H2. lia. }
  repeat split; try (apply N.eqb_neq; lia).
  repeat (apply orb_false_iff; split); apply N.eqb_neq; lia.
Qed.

Lemma skip_ws_number z r : skip_ws (number_to_string z ++ r) = number_to_string z ++ r.
Proof.
  destruct (number_to_string_head z) as [c [cs [E H]]]. rewrite E.
  apply skip_ws_cons. now apply number_start_facts.
Qed.

Lemma parse_value_number f z r :
  parse_value (S f) (number_to_string z ++ COMMA :: r) =
  Parsed (Num (Integer z)) (COMMA :: r).
Proof.
  pose proof (parse_number_to_string z r) as Hn.
  destruct (number_to_string_head z) as [c [cs [E H]]].
  rewrite E in *. simpl app in *.
  destruct (number_start_facts c H) as [H1 [H2 [H3 _]]].
  cbn [parse_value]. rewrite H1, H2, H3, H, Hn. reflexivity.
Qed.

Lemma skip_ws_bool b r : skip_ws (serialize_bool b ++ r) = serialize_bool b ++ r.
Proof. destruct b; reflexivity. Qed.

Lemma skip_ws_quote s r : skip_ws (quote s ++ r) = quote s ++ r.
Proof. reflexivity. Qed.

(** *** Reading the members of an object *)

Lemma parse_members_quote f k r :
  parse_members (S f) (quote k ++ COLON :: r) =
  match parse_value f (skip_ws r) with
  | Parsed v rest =>
      match skip_ws rest with
      | c3 :: r3 =>
          if c3 =? COMMA then
            match parse_members f (skip_ws r3) with
            | Parsed ms rest' => Parsed ((k, v) :: ms) rest'
            | Malformed => Malformed
            | OutOfFuel => OutOfFuel
            end
          else if c3 =? RBRACE then Parsed [(k, v)] r3
          else Malformed
      | [] => Malformed
      end
  | Malformed => Malformed
  | OutOfFuel => OutOfFuel
  end.
Proof.
  rewrite quote_app, Fuel.parse_members_S.
  cbv beta iota. change (QUOTE =? QUOTE) with true. cbv beta iota.
  rewrite parse_chars_quote_chars. reflexivity.
Qed.

Lemma parse_members_more f k y v k' z :
  skip_ws y = y ->
  parse_value f y = Parsed v (COMMA :: quote k' ++ z) ->
  parse_members (S f) (quote k ++ COLON :: y) =
  match parse_members f (quote k' ++ z) with
  | Parsed ms rest' => Parsed ((k, v) :: ms) rest'
  | Malformed => Malformed
  | OutOfFuel => OutOfFuel
  end.
Proof.
  intros Hy Hv. rewrite parse_members_quote, Hy, Hv. reflexivity.
Qed.

Lemma parse_members_last f k y v r :
  skip_ws y = y ->
  parse_value f y = Parsed v (RBRACE :: r) ->
  parse_members (S f) (quote k ++ COLON :: y) = Parsed [(k, v)] r.
Proof.
  intros Hy Hv. rewrite parse_members_quote, Hy, Hv. reflexivity.
Qed.

End JSONFacts.

(** ** What [saveTodos] writes, [loadTodos] reads *)

Module Roundtrip.
Import JSON.
Local Open Scope N_scope.

Lemma stringify_todo_text t r :
  stringify_todo t ++ r =
  LBRACE :: quote (Str.lit "id") ++ COLON :: number_to_string (id t)
    ++ COMMA :: quote (Str.lit "title") ++ COLON :: quote (title t)
    ++ COMMA :: quote (Str.lit "completed") ++ COLON :: serialize_bool (completed t)
    ++ RBRACE :: r.
Proof.
  unfold stringify_todo, serialize_object.
  cbn [map join fst snd].
  repeat (cbn [app]; rewrite <- ?app_assoc; progress cbn [app]).
  reflexivity.
Qed.

Lemma make_object_todo t :
  make_object
    [ (Str.lit "id", Num (Integer (id t)));
      (Str.lit "title", String (title t));
      (Str.lit "completed", Bool (completed t)) ] = todo_value t.
Proof. reflexivity. Qed.

(** A serialized todo is read back as the object it came from. *)
Lemma parse_value_todo f t r :
  (5 <= f)%nat ->
  parse_value f (stringify_todo t ++ r) = Parsed (todo_value t) r.
Proof.
  intros Hf.
  do 5 (destruct f as [|f]; [lia|]). clear Hf.
  rewrite stringify_todo_text.
  change (parse_value (S (S (S (S (S f))))) (LBRACE :: quote (Str.lit "id") ++ ?x))
    with (match parse_members (S (S (S (S f)))) (quote (Str.lit "id") ++ x) with
          | Parsed ms rest => Parsed (make_object ms) rest
          | Malformed => Malformed
          | OutOfFuel => OutOfFuel
          end).
  erewrite JSONFacts.parse_members_more;
    [| apply JSONFacts.skip_ws_number | apply JSONFacts.parse_value_number ].
  erewrite JSONFacts.parse_members_more;
    [| apply JSONFacts.skip_ws_quote | apply JSONFacts.parse_value_quote ].
  erewrite JSONFacts.parse_members_last;
    [| apply JSONFacts.skip_ws_bool | apply JSONFacts.parse_value_bool ].
  now rewrite make_object_todo.
Qed.

Lemma stringify_todo_head t r : exists tail, stringify_todo t ++ r = LBRACE :: QUOTE :: tail.
Proof. rewrite stringify_todo_text. eexists. reflexivity. Qed.

Lemma join_cons2 sep (p q : jsstring) ps :
  join sep (p :: q :: ps) = p ++ sep ++ join sep (q :: ps).
Proof. reflexivity. Qed.

Lemma elements_head t l r :
  exists tail,
    join [COMMA] (map stringify_todo (t :: l)) ++ r = LBRACE :: QUOTE :: tail.
Proof.
  destruct l as [|u l].
  - apply stringify_todo_head.
  - cbn [map]. rewrite join_cons2, <- app_assoc. apply stringify_todo_head.
Qed.

(** The elements of a serialized list, up to the closing bracket. *)
Lemma parse_elements_todos l : forall t f r,
  (List.length (t :: l) + 5 <= f)%nat ->
  parse_elements f (join [COMMA] (map stringify_todo (t :: l)) ++ RBRACKET :: r) =
  Parsed (map todo_value (t :: l)) r.
Proof.
  induction l as [|u l IH]; intros t f r Hf.
  - destruct f as [|f]; [simpl in Hf; lia|].
    cbn [map join].
    rewrite Fuel.parse_elements_S.
    rewrite parse_value_todo by (simpl in Hf; lia). reflexivity.
  - destruct f as [|f]; [simpl in Hf; lia|].
    cbn [map]. rewrite join_cons2, <- !app_assoc.
    rewrite Fuel.parse_elements_S.
    rewrite parse_value_todo by (simpl in Hf; lia).
    cbn [app].
    change (skip_ws (COMMA :: ?x)) with (COMMA :: x).
    cbv beta iota. rewrite N.eqb_refl.
    specialize (IH u f r ltac:(simpl in *; lia)).
    cbn [map] in IH.
    destruct (elements_head u l (RBRACKET :: r)) as [tail E].
    cbn [map] in E. rewrite E in *.
    change (skip_ws (LBRACE :: QUOTE :: tail)) with (LBRACE :: QUOTE :: tail).
    rewrite IH. reflexivity.
Qed.

Lemma length_stringify_todo t : (2 <= List.length (stringify_todo t))%nat.
Proof.
  unfold stringify_todo, serialize_object. cbn [List.length].
  rewrite length_app. cbn [List.length]. lia.
Qed.

Lemma length_join_todos l :
  (2 * List.length l <= List.length (join [COMMA] (map stringify_todo l)))%nat.
Proof.
  induction l as [|t l IH]; [simpl; lia|].
  pose proof (length_stringify_todo t).
  destruct l as [|u l]; [simpl in *; lia|].
  cbn [map] in *. rewrite join_cons2, !length_app. cbn [List.length] in *. lia.
Qed.

(** [JSON.parse] gives back the value [JSON.stringify] was applied to. *)
Lemma parse_stringify_todos l :
  JSON.parse (stringify_todos l) = Return (todos_value l).
Proof.
  destruct l as [|t l]; [reflexivity|].
  unfold JSON.parse, stringify_todos, serialize_array, todos_value.
  pose proof (length_join_todos (t :: l)) as Hlen.
  set (body := join [COMMA] (map stringify_todo (t :: l))) in *.
  assert (Hfuel : exists f, fuel_for (LBRACKET :: body ++ [RBRACKET]) = S f
                            /\ (List.length (t :: l) + 5 <= f)%nat).
  { exists (2 * List.length (LBRACKET :: body ++ [RBRACKET]) + 1)%nat.
    split; [unfold fuel_for; lia|].
    cbn [List.length] in *. rewrite length_app. cbn [List.length]. lia. }
  destruct Hfuel as [f [-> Hf]].
  pose proof (@parse_elements_todos l t f [] Hf) as Hp. fold body in Hp.
  destruct (elements_head t l [RBRACKET]) as [tail E]. fold body in E.
  change (skip_ws (LBRACKET :: ?x)) with (LBRACKET :: x).
  rewrite E in *.
  change (parse_value (S f) (LBRACKET :: LBRACE :: QUOTE :: tail))
    with (match parse_elements f (LBRACE :: QUOTE :: tail) with
          | Parsed vs rest => Parsed (Array vs) rest
          | Malformed => Malformed
          | OutOfFuel => OutOfFuel
          end).
  rewrite Hp. reflexivity.
Qed.

Lemma as_todo_value t : as_todo (todo_value t) = Some t.
Proof. destruct t. reflexivity. Qed.

Lemma as_todos_value l : as_todos (todos_value l) = Some l.
Proof.
  unfold todos_value, as_todos.
  induction l as [|t l IH]; [reflexivity|].
  cbn [map as_todo_list]. now rewrite as_todo_value, IH.
Qed.

Lemma getItem_setItem k v st : Storage.getItem k (Storage.setItem k v st) = Some v.
Proof. unfold Storage.setItem. simpl. now rewrite StrFacts.eqb_refl. Qed.

Lemma stored_saveTodos l storage : stored (saveTodos l storage) l.
Proof. apply getItem_setItem. Qed.

Lemma stringify_todos_truthy l : Str.truthy (stringify_todos l) = true.
Proof. reflexivity. Qed.

Lemma loadTodos_stored storage l :
  stored storage l -> loadTodos storage = Return (todos_value l).
Proof.
  unfold stored, loadTodos. intros ->.
  unfold or_default. rewrite stringify_todos_truthy, parse_stringify_todos.
  reflexivity.
Qed.

End Roundtrip.

(** Split a conjunction into its parts, and nothing else. *)
Ltac conjuncts := repeat match goal with |- _ /\ _ => split end.

(** ** The handlers, one by one *)

Lemma todos_setTodos l c : todos (setTodos l c) = l.
Proof. reflexivity. Qed.

Lemma Add_todos now text c :
  todos (Add now text c) =
  if Str.blank text then todos c else todos c ++ [new_todo now text].
Proof.
  unfold Add, handleAddTodo.
  rewrite StrFacts.truthy_trim. now destruct (Str.blank text).
Qed.

Lemma Add_blank now text c : Str.blank text = true -> Add now text c = c.
Proof.
  intros H. unfold Add, handleAddTodo.
  rewrite StrFacts.truthy_trim, H. reflexivity.
Qed.

Lemma add_all_todos adds : forall c,
  todos (add_all adds c) =
  todos c ++ map (fun a => new_todo (fst a) (snd a)) (accepted adds).
Proof.
  induction adds as [|[now text] adds IH]; intros c; simpl.
  - now rewrite app_nil_r.
  - unfold add_all in *. simpl. rewrite IH, Add_todos.
    destruct (Str.blank text); simpl; [reflexivity|].
    now rewrite <- app_assoc.
Qed.

(** C3. [Add] trims its input.  When nothing is left (the input was empty
    or white space only, as in the two literal cases) the component is left
    as it was; otherwise exactly one task, with the trimmed title and not
    completed, is put after the existing ones.  A series of adds therefore
    appends the tasks of the accepted adds, in call order, and the length
    grows by the number of accepted adds. *)
Theorem Add_appends_trimmed (now : Z) (text : jsstring) (c : Component)
  (adds : list (Z * jsstring)) :
  (if Str.blank text then Add now text c = c
   else todos (Add now text c) = todos c ++ [new_todo now text])
  /\ Add now (Str.lit "") c = c
  /\ Add now (Str.lit "   ") c = c
  /\ todos (add_all adds c) =
       todos c ++ map (fun a => new_todo (fst a) (snd a)) (accepted adds)
  /\ List.length (todos (add_all adds c)) =
       (List.length (todos c) + List.length (accepted adds))%nat.
Proof.
  conjuncts.
  - destruct (Str.blank text) eqn:E.
    + now apply Add_blank.
    + now rewrite Add_todos, E.
  - now apply Add_blank.
  - now apply Add_blank.
  - apply add_all_todos.
  - rewrite add_all_todos, length_app, length_map. reflexivity.
Qed.

Lemma handleEditSubmit_edit_state i c :
  editingId (handleEditSubmit i c) = None /\ editValue (handleEditSubmit i c) = [].
Proof. split; reflexivity. Qed.

(** C5. [CommitEdit] trims the draft.  A draft with something left gives
    the matching task the trimmed text as its title; a draft with nothing
    left has on the list, and on what is stored, the effect of [Delete];
    either way no task is being edited afterwards and the draft is empty. *)
Theorem CommitEdit_updates_or_deletes (i : Z) (draftText : jsstring) (c : Component) :
  editingId (CommitEdit i draftText c) = None
  /\ editValue (CommitEdit i draftText c) = []
  /\ (if Str.blank draftText
      then todos (CommitEdit i draftText c) = todos (handleDelete i c)
           /\ localStorage (CommitEdit i draftText c) = localStorage (handleDelete i c)
      else todos (CommitEdit i draftText c) =
           map (fun t => if (id t =? i)%Z then retitled (Str.trim draftText) t else t)
             (todos c))
  /\ todos (CommitEdit i (Str.lit "") c) = todos (handleDelete i c).
Proof.
  conjuncts.
  - reflexivity.
  - reflexivity.
  - unfold CommitEdit, handleEditSubmit, handleEditChange. simpl.
    rewrite StrFacts.truthy_trim.
    destruct (Str.blank draftText); simpl; [split; reflexivity | reflexivity].
  - reflexivity.
Qed.

Lemma toggled_involutive t : toggled (toggled t) = t.
Proof. destruct t as [i s b]. unfold toggled. simpl. now rewrite negb_involutive. Qed.

Lemma handleToggle_todos i c :
  todos (handleToggle i c) =
  map (fun t => if (id t =? i)%Z then toggled t else t) (todos c).
Proof. reflexivity. Qed.

(** C6. [Toggle] flips [completed] on the tasks whose id matches and
    changes nothing when none matches; two toggles in a row give back the
    list they started from. *)
Theorem handleToggle_twice (i : Z) (c : Component) :
  todos (handleToggle i (handleToggle i c)) = todos c
  /\ map completed (todos (handleToggle i c)) =
       map (fun t => if (id t =? i)%Z then negb (completed t) else completed t)
         (todos c)
  /\ (forallb (fun t => negb (id t =? i)%Z) (todos c) = true ->
      todos (handleToggle i c) = todos c).
Proof.
  rewrite !handleToggle_todos. conjuncts.
  - rewrite map_map. rewrite <- (map_id (todos c)) at 2.
    apply map_ext. intros t.
    destruct (id t =? i)%Z eqn:E; [|now rewrite E].
    change (id (toggled t)) with (id t). rewrite E. apply toggled_involutive.
  - rewrite map_map. apply map_ext. intros t.
    now destruct (id t =? i)%Z.
  - intros H. rewrite <- (map_id (todos c)) at 2.
    apply map_ext_in. intros t Ht.
    apply (proj1 (forallb_forall _ _) H) in Ht.
    now destruct (id t =? i)%Z.
Qed.

Lemma handleToggle_twice_witness :
  todos (handleToggle 7 toggle_sample) = todos toggle_sample.
Proof.
  apply (proj2 (proj2 (handleToggle_twice 7 toggle_sample))).
  reflexivity.
Defined.

(** C10. [Toggle] touches nothing but [completed], and that only on the
    tasks whose id matches: the list keeps its length, each position keeps
    its id and its title, a task with another id is the task it was, and
    the filter and the edit state stay as they were. *)
Theorem handleToggle_frame (i : Z) (c : Component) :
  List.length (todos (handleToggle i c)) = List.length (todos c)
  /\ map id (todos (handleToggle i c)) = map id (todos c)
  /\ map title (todos (handleToggle i c)) = map title (todos c)
  /\ (forall k t, nth_error (todos c) k = Some t ->
        exists t', nth_error (todos (handleToggle i c)) k = Some t'
                   /\ id t' = id t /\ title t' = title t
                   /\ (id t <> i -> t' = t))
  /\ filter (handleToggle i c) = filter c
  /\ editingId (handleToggle i c) = editingId c
  /\ editValue (handleToggle i c) = editValue c.
Proof.
  rewrite handleToggle_todos. conjuncts.
  - apply length_map.
  - rewrite map_map. apply map_ext. intros t. now destruct (id t =? i)%Z.
  - rewrite map_map. apply map_ext. intros t. now destruct (id t =? i)%Z.
  - intros k t Hk.
    exists (if (id t =? i)%Z then toggled t else t).
    rewrite nth_error_map, Hk. simpl.
    destruct (id t =? i)%Z eqn:E; repeat split; try reflexivity.
    intros Hne. apply Z.eqb_eq in E. contradiction.
  - reflexivity.
  - reflexivity.
  - reflexivity.
Qed.

Lemma handleToggle_frame_witness :
  exists t', nth_error (todos (handleToggle 1 toggle_sample)) 1 = Some t'
             /\ id t' = 2%Z /\ title t' = Str.lit "feed cat"
             /\ (2%Z <> 1%Z -> t' = new_todo 2 (Str.lit "feed cat")).
Proof.
  apply (proj1 (proj2 (proj2 (proj2 (handleToggle_frame 1 toggle_sample)))) 1%nat
           (new_todo 2 (Str.lit "feed cat"))).
  reflexivity.
Defined.

(** ** The derived view *)

Lemma filteredTodos_passes c :
  filteredTodos c = List.filter (passes (filter c)) (todos c).
Proof.
  unfold filteredTodos. apply filter_ext. intros t.
  now destruct (filter c).
Qed.

Lemma filter_selection p l : selection p l (List.filter p l).
Proof.
  induction l as [|t l IH]; simpl; [constructor|].
  destruct (p t) eqn:E; now constructor.
Qed.

(** A selection is determined by the list and the predicate. *)
Lemma selection_unique p l l1 :
  selection p l l1 -> forall l2, selection p l l2 -> l1 = l2.
Proof.
  induction 1 as [|t l l1 Ht _ IH|t l l1 Ht _ IH]; intros l2 H2;
    inversion H2; subst; try congruence.
  - f_equal. now apply IH.
  - now apply IH.
Qed.

Lemma length_filter_count p l : List.length (List.filter p l) = count p l.
Proof.
  induction l as [|t l IH]; simpl; [reflexivity|].
  destruct (p t); simpl; now rewrite IH.
Qed.

Lemma count_complement l :
  (count (fun t => negb (completed t)) l + count completed l)%nat = List.length l.
Proof.
  induction l as [|t l IH]; simpl; [reflexivity|].
  destruct (completed t); simpl; lia.
Qed.

Lemma scenario_todos now1 now2 :
  now1 <> now2 ->
  todos (scenario now1 now2) =
  [ {| id := now1; title := Str.lit "buy milk"; completed := true |};
    {| id := now2; title := Str.lit "feed cat"; completed := false |} ].
Proof.
  intros H. unfold scenario, setCurrentFilter, setFilter. simpl.
  rewrite Z.eqb_refl.
  destruct (now2 =? now1)%Z eqn:E; [apply Z.eqb_eq in E; congruence|].
  reflexivity.
Qed.

(** The derived view.  The filtered list is the backing list with exactly
    the tasks failing the filter's predicate struck out, the others in
    their order; the two counts are the numbers of tasks that are not,
    and that are, completed.  In the scenario of C8, when the two adds
    read different clock values, the filtered list holds the second task
    only and both counts are 1. *)
Theorem derived_view (c : Component) (now1 now2 : Z) :
  now1 <> now2 ->
  selection (passes (filter c)) (todos c) (filteredTodos c)
  /\ (forall t, In t (filteredTodos c) <->
                In t (todos c) /\ passes (filter c) t = true)
  /\ activeCount c = count (fun t => negb (completed t)) (todos c)
  /\ completedCount c = count completed (todos c)
  /\ (activeCount c + completedCount c)%nat = List.length (todos c)
  /\ filteredTodos (scenario now1 now2) =
       [ {| id := now2; title := Str.lit "feed cat"; completed := false |} ]
  /\ activeCount (scenario now1 now2) = 1%nat
  /\ completedCount (scenario now1 now2) = 1%nat.
Proof.
  intros Hclock. conjuncts.
  - rewrite filteredTodos_passes. apply filter_selection.
  - intros t. rewrite filteredTodos_passes. apply filter_In.
  - apply length_filter_count.
  - unfold completedCount.
    rewrite (filter_ext (fun t => completed t) completed) by reflexivity.
    apply length_filter_count.
  - unfold activeCount, completedCount.
    rewrite !length_filter_count. apply count_complement.
  - unfold filteredTodos. now rewrite (scenario_todos Hclock).
  - unfold activeCount. now rewrite (scenario_todos Hclock).
  - unfold completedCount. now rewrite (scenario_todos Hclock).
Qed.

Lemma derived_view_witness :
  filteredTodos (scenario 1 2) =
    [ {| id := 2; title := Str.lit "feed cat"; completed := false |} ]
  /\ activeCount (scenario 1 2) = 1%nat
  /\ completedCount (scenario 1 2) = 1%nat.
Proof.
  assert (H : 1%Z <> 2%Z) by discriminate.
  exact (proj2 (proj2 (proj2 (proj2 (proj2 (derived_view empty_app H)))))).
Defined.

(** C8, at the failing input: when both adds read the same clock value the
    two tasks share their id, the toggle on the first task's id completes
    both, and the view shows no active task and two completed ones. *)
Theorem scenario_same_clock_reading :
  filteredTodos (scenario 5 5) = []
  /\ activeCount (scenario 5 5) = 0%nat
  /\ completedCount (scenario 5 5) = 2%nat
  /\ ~ (filteredTodos (scenario 5 5) =
          [ {| id := 5; title := Str.lit "feed cat"; completed := false |} ]
        /\ activeCount (scenario 5 5) = 1%nat
        /\ completedCount (scenario 5 5) = 1%nat).
Proof.
  conjuncts; try reflexivity.
  intros [H _]. discriminate H.
Qed.

(** ** Mark all *)

Lemma handleMarkAll_todos b c :
  todos (handleMarkAll b c) =
  map (fun t => {| id := id t; title := title t; completed := b |}) (todos c).
Proof. reflexivity. Qed.

Lemma filter_none (A : Type) (p : A -> bool) (l : list A) :
  (forall x, In x l -> p x = false) -> List.filter p l = [].
Proof.
  induction l as [|a l IH]; simpl; intros H; [reflexivity|].
  rewrite (H a) by now left. apply IH. intros x Hx. apply H. now right.
Qed.

(** C9 (as amended).  [SetAllCompleted b] gives every task [completed = b]
    and leaves ids and titles alone, so no task is active after
    [SetAllCompleted true] and none is completed after
    [SetAllCompleted false].  The mark-all checkbox is rendered only while
    the list is not empty, and is then checked exactly when no task is
    active. *)
Theorem handleMarkAll_sets_every_task (b : bool) (c : Component) :
  Forall (fun t => completed t = b) (todos (handleMarkAll b c))
  /\ map id (todos (handleMarkAll b c)) = map id (todos c)
  /\ map title (todos (handleMarkAll b c)) = map title (todos c)
  /\ activeCount (handleMarkAll true c) = 0%nat
  /\ completedCount (handleMarkAll false c) = 0%nat
  /\ toggle_all_checked (render c) =
       match todos c with
       | [] => None
       | _ :: _ => Some (activeCount c =? 0)%nat
       end.
Proof.
  conjuncts.
  - rewrite handleMarkAll_todos. apply Forall_forall. intros t Ht.
    apply in_map_iff in Ht. destruct Ht as [t0 [<- _]]. reflexivity.
  - rewrite handleMarkAll_todos, map_map. reflexivity.
  - rewrite handleMarkAll_todos, map_map. reflexivity.
  - unfold activeCount. rewrite handleMarkAll_todos, filter_none; [reflexivity|].
    intros t Ht. apply in_map_iff in Ht. destruct Ht as [t0 [<- _]]. reflexivity.
  - unfold completedCount. rewrite handleMarkAll_todos, filter_none; [reflexivity|].
    intros t Ht. apply in_map_iff in Ht. destruct Ht as [t0 [<- _]]. reflexivity.
  - unfold render. simpl. now destruct (todos c).
Qed.

(** C9, the claim as worded: with an empty list no task is active, yet no
    checkbox is rendered, checked or otherwise. *)
Lemma toggle_all_absent_on_empty_list :
  activeCount empty_app = 0%nat
  /\ toggle_all_checked (render empty_app) = None
  /\ toggle_all_checked (render empty_app) <> Some true.
Proof. conjuncts; try reflexivity. discriminate. Qed.

(** ** Identifiers *)

(** C4, at the failing input: two adds that read the same clock value
    leave two tasks with one id. *)
Theorem same_clock_reading_same_id :
  let c := Add 1730000000000 (Str.lit "feed cat")
             (Add 1730000000000 (Str.lit "buy milk") empty_app) in
  ids c = [1730000000000; 1730000000000]%Z
  /\ map title (todos c) = [Str.lit "buy milk"; Str.lit "feed cat"]
  /\ ~ NoDup (ids c).
Proof.
  intros c. conjuncts; try reflexivity.
  intros H. change (NoDup [1730000000000; 1730000000000]%Z) in H.
  inversion H as [|x l Hin Hnd]; subst. apply Hin. now left.
Qed.

Lemma NoDup_map_filter (p : Todo -> bool) l :
  NoDup (map id l) -> NoDup (map id (List.filter p l)).
Proof.
  induction l as [|t l IH]; simpl; intros H; [constructor|].
  inversion H as [|x xs Hin Hnd]; subst.
  destruct (p t); simpl; [constructor|]; auto.
  intros Hc. apply Hin. apply in_map_iff in Hc. destruct Hc as [u [Hu Hf]].
  apply in_map_iff. exists u. split; [exact Hu|]. now apply filter_In in Hf.
Qed.

Lemma ids_map_same (f : Todo -> Todo) l :
  (forall t, id (f t) = id t) -> map id (map f l) = map id l.
Proof. intros H. rewrite map_map. now apply map_ext. Qed.

(** The ids stay pairwise different as long as every submit reads a clock
    value that is not an id already in the list. *)
Lemma dispatch_keeps_ids_distinct e c :
  NoDup (ids c) -> fresh_clock e c -> NoDup (ids (dispatch e c)).
Proof.
  unfold ids. intros Hnd Hfresh.
  assert (Hedit : forall i, NoDup (map id (todos (handleEditSubmit i c)))).
  { intros i. unfold handleEditSubmit. simpl.
    destruct (Str.truthy (Str.trim (editValue c))); simpl.
    - rewrite ids_map_same; [exact Hnd|]. intros t. now destruct (id t =? i)%Z.
    - now apply NoDup_map_filter. }
  destruct e as [now r|i|i|t|v|k i| i | |b|f]; simpl; try exact Hnd.
  - unfold handleAddTodo.
    destruct (Str.truthy _); simpl; [|exact Hnd].
    rewrite map_app. simpl.
    apply NoDup_rev in Hnd. rewrite <- (rev_involutive (map id (todos c) ++ [now])).
    apply NoDup_rev. rewrite rev_app_distr. simpl. constructor; [|exact Hnd].
    intros Hc. apply Hfresh. now apply in_rev.
  - rewrite ids_map_same; [exact Hnd|]. intros t. now destruct (id t =? i)%Z.
  - now apply NoDup_map_filter.
  - unfold handleEditKeyDown.
    destruct (Str.eqb k (Str.lit "Enter")); [apply Hedit|].
    destruct (Str.eqb k (Str.lit "Escape")); exact Hnd.
  - apply Hedit.
  - now apply NoDup_map_filter.
  - rewrite ids_map_same; [exact Hnd|]. reflexivity.
Qed.

Lemma dispatch_keeps_ids_distinct_witness :
  NoDup (ids (dispatch (Submit 3 (Some (Str.lit "walk dog"))) toggle_sample)).
Proof.
  apply dispatch_keeps_ids_distinct.
  - unfold ids. simpl. repeat constructor; simpl; intuition discriminate.
  - simpl. unfold ids. simpl. intuition discriminate.
Defined.

(** ** Persistence *)

(** C1. Loading what [saveTodos] wrote for a well-formed list gives that
    list back: [loadTodos] returns the array of the same objects, which read
    at the type [Todo[]] is the list itself, and a page load starts from
    it. *)
Theorem load_after_save (L : list Todo) (storage : Storage.t) :
  Forall well_formed_todo L ->
  loadTodos (saveTodos L storage) = Return (todos_value L)
  /\ as_todos (todos_value L) = Some L
  /\ option_map todos (TodoApp (saveTodos L storage)) = Some L.
Proof.
  intros _.
  pose proof (Roundtrip.loadTodos_stored (Roundtrip.stored_saveTodos L storage)) as Hload.
  conjuncts.
  - exact Hload.
  - apply Roundtrip.as_todos_value.
  - unfold TodoApp. rewrite Hload, Roundtrip.as_todos_value. reflexivity.
Qed.

Lemma load_after_save_witness :
  loadTodos (saveTodos sample_todos []) = Return (todos_value sample_todos)
  /\ as_todos (todos_value sample_todos) = Some sample_todos
  /\ option_map todos (TodoApp (saveTodos sample_todos [])) = Some sample_todos.
Proof.
  apply load_after_save.
  repeat constructor; unfold safe_integer, Str.code_unit; simpl; lia.
Defined.

(** Where [loadTodos] does fail soft.  It never throws.  It returns the
    empty list when the entry is absent, when it is the empty string, and
    when it is not JSON text; when it is what [saveTodos] wrote for a list,
    it returns that list. *)
Theorem loadTodos_fails_soft (storage : Storage.t) :
  (exists v, loadTodos storage = Return v)
  /\ (Storage.getItem LOCAL_STORAGE_KEY storage = None ->
      loadTodos storage = Return (JSON.Array []))
  /\ (Storage.getItem LOCAL_STORAGE_KEY storage = Some [] ->
      loadTodos storage = Return (JSON.Array []))
  /\ (forall s e,
        Storage.getItem LOCAL_STORAGE_KEY storage = Some s ->
        JSON.parse s = Throw e ->
        loadTodos storage = Return (JSON.Array []))
  /\ (forall L, stored storage L -> loadTodos storage = Return (todos_value L)).
Proof.
  conjuncts.
  - unfold loadTodos, try_catch.
    destruct (JSON.parse _) as [v|e]; eexists; reflexivity.
  - unfold loadTodos. intros ->. reflexivity.
  - unfold loadTodos. intros ->. reflexivity.
  - unfold loadTodos. intros s e -> Hs.
    destruct s as [|c s]; [reflexivity|].
    unfold or_default, Str.truthy. now rewrite Hs.
  - intros L. apply Roundtrip.loadTodos_stored.
Qed.

Lemma loadTodos_fails_soft_witness :
  loadTodos [] = Return (JSON.Array [])
  /\ loadTodos [(LOCAL_STORAGE_KEY, [])] = Return (JSON.Array [])
  /\ loadTodos [(LOCAL_STORAGE_KEY, Str.lit "{oops")] = Return (JSON.Array [])
  /\ loadTodos (saveTodos sample_todos []) = Return (todos_value sample_todos).
Proof.
  conjuncts.
  - apply (proj1 (proj2 (loadTodos_fails_soft []))). reflexivity.
  - apply (proj1 (proj2 (proj2 (loadTodos_fails_soft [(LOCAL_STORAGE_KEY, [])])))).
    reflexivity.
  - apply (proj1 (proj2 (proj2 (proj2
             (loadTodos_fails_soft [(LOCAL_STORAGE_KEY, Str.lit "{oops")]))))
             (Str.lit "{oops") SyntaxError); reflexivity.
  - apply (proj2 (proj2 (proj2 (proj2
             (loadTodos_fails_soft (saveTodos sample_todos [])))))).
    reflexivity.
Defined.

(** C2, at the failing input: an entry holding the JSON text of a number is
    parsed without error, so nothing is caught and [loadTodos] returns that
    number, which is neither the empty list nor a list at all. *)
Theorem loadTodos_returns_a_number :
  loadTodos [(LOCAL_STORAGE_KEY, Str.lit "42")] = Return (JSON.Num (JSON.Integer 42))
  /\ as_todos (JSON.Num (JSON.Integer 42)) = None
  /\ loadTodos [(LOCAL_STORAGE_KEY, Str.lit "42")] <> Return (JSON.Array []).
Proof.
  conjuncts; try discriminate.
  - reflexivity.
  - reflexivity.
Qed.

(** ** Titles *)

Lemma titles_ok_filter p l : titles_ok l -> titles_ok (List.filter p l).
Proof.
  unfold titles_ok. rewrite !Forall_forall. intros H t Ht.
  apply filter_In in Ht. now apply H.
Qed.

Lemma titles_ok_map (f : Todo -> Todo) l :
  (forall t, Str.blank (title t) = false -> Str.blank (title (f t)) = false) ->
  titles_ok l -> titles_ok (map f l).
Proof.
  unfold titles_ok. rewrite !Forall_forall. intros Hf H t Ht.
  apply in_map_iff in Ht. destruct Ht as [u [<- Hu]]. apply Hf. now apply H.
Qed.

Lemma persisted_ok_setTodos l c : titles_ok l -> persisted_ok (setTodos l c).
Proof. intros H. split; [apply Roundtrip.stored_saveTodos | exact H]. Qed.

Lemma persisted_ok_handleEditSubmit i c :
  persisted_ok c -> persisted_ok (handleEditSubmit i c).
Proof.
  intros [Hs Ht]. unfold handleEditSubmit.
  destruct (Str.truthy (Str.trim (editValue c))) eqn:E.
  - apply (@persisted_ok_setTodos _ c). apply titles_ok_map; [|exact Ht].
    intros t Hb. destruct (id t =? i)%Z; [|exact Hb].
    now apply StrFacts.trim_truthy_not_blank.
  - apply (@persisted_ok_setTodos _ c). now apply titles_ok_filter.
Qed.

(** No handler puts a blank title in the list, and each one that changes
    the list stores the new one. *)
Lemma persisted_ok_dispatch e c : persisted_ok c -> persisted_ok (dispatch e c).
Proof.
  intros H. pose proof H as [Hs Ht].
  destruct e as [now r|i|i|t|v|k i| i | |b|f]; simpl; try exact H.
  - unfold handleAddTodo.
    destruct r as [v|]; [|exact H].
    destruct (Str.truthy (Str.trim v)) eqn:E; [|exact H].
    apply persisted_ok_setTodos. apply Forall_app. split; [exact Ht|].
    constructor; [|constructor]. now apply StrFacts.trim_truthy_not_blank.
  - apply persisted_ok_setTodos. apply titles_ok_map; [|exact Ht].
    intros t Hb. now destruct (id t =? i)%Z.
  - apply persisted_ok_setTodos. now apply titles_ok_filter.
  - unfold handleEditKeyDown.
    destruct (Str.eqb k (Str.lit "Enter")); [now apply persisted_ok_handleEditSubmit|].
    destruct (Str.eqb k (Str.lit "Escape")); exact H.
  - now apply persisted_ok_handleEditSubmit.
  - apply persisted_ok_setTodos. now apply titles_ok_filter.
  - apply persisted_ok_setTodos. apply titles_ok_map; [|exact Ht]. auto.
Qed.

Lemma persisted_ok_trace events : forall c,
  persisted_ok c -> Forall persisted_ok (trace events c) /\ persisted_ok (run events c).
Proof.
  induction events as [|e events IH]; intros c H; simpl.
  - split; [now constructor | exact H].
  - destruct (IH (dispatch e c) (persisted_ok_dispatch e H)) as [Htr Hrun].
    split; [now constructor | exact Hrun].
Qed.

(** A page load over acceptable storage starts in an acceptable state. *)
Lemma TodoApp_persisted_ok storage :
  storage_ok storage -> exists c, TodoApp storage = Some c /\ persisted_ok c.
Proof.
  intros [Habsent | [l [Hl Ht]]]; unfold TodoApp.
  - assert (E : loadTodos storage = Return (JSON.Array [])).
    { unfold loadTodos. now rewrite Habsent. }
    rewrite E. simpl. eexists. split; [reflexivity|].
    split; [apply Roundtrip.stored_saveTodos | constructor].
  - rewrite (Roundtrip.loadTodos_stored Hl), Roundtrip.as_todos_value.
    eexists. split; [reflexivity|].
    split; [apply Roundtrip.stored_saveTodos | exact Ht].
Qed.

Lemma persisted_ok_storage_ok c : persisted_ok c -> storage_ok (localStorage c).
Proof. intros [Hs Ht]. right. now exists (todos c). Qed.

(** C7. Starting from storage that holds nothing, or a list this component
    wrote, every page load succeeds, and in every state any series of page
    loads and events passes through, the list has no empty or white-space
    title and the storage entry is the serialization of that very list. *)
Theorem titles_never_blank (loads : list (list Event)) (storage : Storage.t) :
  storage_ok storage ->
  exists states,
    sessions loads storage = Some states
    /\ Forall (fun c => titles_ok (todos c) /\ stored (localStorage c) (todos c)) states.
Proof.
  revert storage. induction loads as [|events later IH]; intros storage Hok; simpl.
  - exists []. split; [reflexivity | constructor].
  - destruct (TodoApp_persisted_ok Hok) as [c [-> Hc]].
    destruct (persisted_ok_trace events Hc) as [Htr Hrun].
    destruct (IH _ (persisted_ok_storage_ok Hrun)) as [states [-> Hstates]].
    eexists. split; [reflexivity|].
    apply Forall_app. split; [|exact Hstates].
    apply Forall_forall. intros x Hx.
    destruct (proj1 (Forall_forall _ _) Htr x Hx) as [H1 H2]. now split.
Qed.

Lemma titles_never_blank_witness :
  exists states,
    sessions sample_loads [] = Some states
    /\ Forall (fun c => titles_ok (todos c) /\ stored (localStorage c) (todos c)) states.
Proof. apply titles_never_blank. left. reflexivity. Defined.

(** * Further properties of the component *)

(** ** More on [trim] *)

Module TrimFacts.

Lemma trimStart_snoc l c :
  Str.is_space c = false -> exists y, Str.trimStart (l ++ [c]) = y ++ [c].
Proof.
  intros Hc. induction l as [|a l [y IH]]; simpl.
  - rewrite Hc. now exists [].
  - destruct (Str.is_space a).
    + now exists y.
    + now exists (a :: l).
Qed.

(** [trimEnd] keeps the first code unit of a string that starts with
    something else than a space. *)
Lemma trimEnd_head c r :
  Str.is_space c = false -> exists r', Str.trimEnd (c :: r) = c :: r'.
Proof.
  intros Hc. unfold Str.trimEnd. simpl rev.
  destruct (@trimStart_snoc (rev r) c Hc) as [y E]. rewrite E.
  rewrite rev_app_distr. simpl. now exists (rev y).
Qed.

Lemma trimEnd_idem s : Str.trimEnd (Str.trimEnd s) = Str.trimEnd s.
Proof.
  unfold Str.trimEnd. now rewrite rev_involutive, StrFacts.trimStart_idem.
Qed.

Lemma trimStart_trim s : Str.trimStart (Str.trim s) = Str.trim s.
Proof.
  unfold Str.trim.
  destruct (Str.trimStart s) as [|c r] eqn:E; [reflexivity|].
  destruct (@trimEnd_head c r) as [r' E'];
    [eapply StrFacts.trimStart_head; eassumption|].
  rewrite E'. eapply StrFacts.trimStart_fixed; [reflexivity|].
  eapply StrFacts.trimStart_head; eassumption.
Qed.

(** There is nothing left to trim in what [trim] returns. *)
Lemma trim_idem s : Str.trim (Str.trim s) = Str.trim s.
Proof.
  unfold Str.trim at 1. rewrite trimStart_trim.
  unfold Str.trim. apply trimEnd_idem.
Qed.

Lemma trimmed_trim s : Str.truthy (Str.trim s) = true -> trimmed (Str.trim s).
Proof.
  intros H. split; [apply trim_idem|].
  now apply StrFacts.truthy_nonempty.
Qed.

Lemma trimmed_truthy s : trimmed s -> Str.truthy (Str.trim s) = true.
Proof. intros [E H]. rewrite E. now apply StrFacts.truthy_nonempty. Qed.

End TrimFacts.

(** ** More on storage *)

Module StorageFacts.

Lemma getItem_removeItem_other k k' st :
  Str.eqb k k' = false ->
  Storage.getItem k (Storage.removeItem k' st) = Storage.getItem k st.
Proof.
  intros H. induction st as [|[a v] st IH]; simpl; [reflexivity|].
  destruct (Str.eqb k' a) eqn:E.
  - apply StrFacts.eqb_eq in E. subst a. now rewrite H.
  - simpl. now rewrite IH.
Qed.

Lemma getItem_setItem_other k k' v st :
  Str.eqb k k' = false ->
  Storage.getItem k (Storage.setItem k' v st) = Storage.getItem k st.
Proof.
  intros H. unfold Storage.setItem. simpl. rewrite H.
  now apply getItem_removeItem_other.
Qed.

Lemma removeItem_idem k st :
  Storage.removeItem k (Storage.removeItem k st) = Storage.removeItem k st.
Proof.
  induction st as [|[a v] st IH]; simpl; [reflexivity|].
  destruct (Str.eqb k a) eqn:E; [exact IH|].
  simpl. now rewrite E, IH.
Qed.

(** Of two writes to one key the later one is what remains. *)
Lemma setItem_setItem k v v' st :
  Storage.setItem k v (Storage.setItem k v' st) = Storage.setItem k v st.
Proof.
  unfold Storage.setItem. simpl. rewrite StrFacts.eqb_refl.
  now rewrite removeItem_idem.
Qed.

End StorageFacts.

(** ** Lists *)

Module ListFacts.

Lemma subsequence_refl (A : Type) (l : list A) : subsequence l l.
Proof. induction l; now constructor. Qed.

Lemma subsequence_filter (A : Type) (p : A -> bool) l :
  subsequence (List.filter p l) l.
Proof.
  induction l as [|x l IH]; simpl; [constructor|].
  destruct (p x); now constructor.
Qed.

Lemma subsequence_map (A B : Type) (f : A -> B) l' l :
  subsequence l' l -> subsequence (map f l') (map f l).
Proof. induction 1; simpl; now constructor. Qed.

Lemma subsequence_app_r (A : Type) (l' l extra : list A) :
  subsequence l' l -> subsequence l' (l ++ extra).
Proof.
  induction 1; simpl; try now constructor.
  induction extra; now constructor.
Qed.

Lemma subsequence_length (A : Type) (l' l : list A) :
  subsequence l' l -> (List.length l' <= List.length l)%nat.
Proof. induction 1; simpl; lia. Qed.

Lemma subsequence_In (A : Type) (l' l : list A) x :
  subsequence l' l -> In x l' -> In x l.
Proof. induction 1; simpl; intuition. Qed.

Lemma filter_all (A : Type) (p : A -> bool) l :
  (forall x, In x l -> p x = true) -> List.filter p l = l.
Proof.
  induction l as [|x l IH]; simpl; intros H; [reflexivity|].
  rewrite (H x) by now left. f_equal. apply IH. intros y Hy. apply H. now right.
Qed.

Lemma filter_idem (A : Type) (p : A -> bool) l :
  List.filter p (List.filter p l) = List.filter p l.
Proof.
  apply filter_all. intros x Hx. now apply filter_In in Hx.
Qed.

(** In a list with pairwise different ids a task is known by its id. *)
Lemma same_id_same_todo l t u :
  NoDup (map id l) -> In t l -> In u l -> id u = id t -> u = t.
Proof.
  induction l as [|a l IH]; simpl; [contradiction|].
  intros Hnd Ht Hu E. inversion Hnd as [|x xs Hin Hnd']; subst.
  destruct Ht as [->|Ht], Hu as [->|Hu]; auto.
  - exfalso. apply Hin. rewrite <- E. now apply in_map.
  - exfalso. apply Hin. rewrite E. now apply in_map.
Qed.

Lemma at_most_one_with_id l i :
  NoDup (map id l) ->
  (List.length (List.filter (fun t => (i =? id t)%Z) l) <= 1)%nat.
Proof.
  induction l as [|a l IH]; simpl; intros Hnd; [lia|].
  inversion Hnd as [|x xs Hin Hnd']; subst.
  destruct (i =? id a)%Z eqn:E; [|now apply IH].
  apply Z.eqb_eq in E. simpl.
  rewrite filter_none; [simpl; lia|].
  intros u Hu. apply Z.eqb_neq. intros E'. apply Hin.
  rewrite <- E, E'. now apply in_map.
Qed.

End ListFacts.

(** ** Delete and clear completed *)

Lemma not_in_ids_neq c i t : ~ In i (ids c) -> In t (todos c) -> (id t =? i)%Z = false.
Proof.
  intros Hi Ht. apply Z.eqb_neq. intros E. apply Hi. rewrite <- E.
  unfold ids. now apply in_map.
Qed.

(** [handleDelete i] strikes out the tasks with id [i], all of them and no
    other, and leaves the rest in their order; no task has id [i]
    afterwards, so a second delete finds nothing, as does a delete of an id
    the list never had.  The filter and the edit state are not touched,
    even when the deleted task is the one being edited. *)
Theorem handleDelete_removes_matching (i : Z) (c : Component) :
  (forall t, In t (todos (handleDelete i c)) <-> In t (todos c) /\ id t <> i)
  /\ subsequence (todos (handleDelete i c)) (todos c)
  /\ ~ In i (ids (handleDelete i c))
  /\ todos (handleDelete i (handleDelete i c)) = todos (handleDelete i c)
  /\ (~ In i (ids c) -> todos (handleDelete i c) = todos c)
  /\ filter (handleDelete i c) = filter c
  /\ editingId (handleDelete i c) = editingId c
  /\ editValue (handleDelete i c) = editValue c.
Proof.
  conjuncts; try reflexivity.
  - intros t. simpl. rewrite filter_In.
    split; intros [H1 H2]; split; auto.
    + intros E. rewrite E, Z.eqb_refl in H2. discriminate.
    + apply negb_true_iff. now apply Z.eqb_neq.
  - apply ListFacts.subsequence_filter.
  - unfold ids. simpl. intros H. apply in_map_iff in H.
    destruct H as [t [E Ht]]. apply filter_In in Ht. destruct Ht as [_ Ht].
    rewrite E, Z.eqb_refl in Ht. discriminate.
  - simpl. apply ListFacts.filter_idem.
  - intros Hi. simpl. apply ListFacts.filter_all. intros t Ht.
    now rewrite (@not_in_ids_neq c i t Hi Ht).
Qed.

Lemma handleDelete_removes_matching_witness :
  todos (handleDelete 7 toggle_sample) = todos toggle_sample.
Proof.
  apply (proj1 (proj2 (proj2 (proj2 (proj2 (handleDelete_removes_matching 7 toggle_sample)))))).
  unfold ids. simpl. intuition discriminate.
Defined.

(** [handleClearCompleted] leaves exactly what the Active filter shows.  No
    task is completed afterwards and as many are active as before; doing it
    again changes nothing.  The clear button is gone, and when every task
    was completed so are the main section and the footer. *)
Theorem handleClearCompleted_keeps_active (c : Component) :
  todos (handleClearCompleted c) = filteredTodos (setCurrentFilter Active c)
  /\ Forall (fun t => completed t = false) (todos (handleClearCompleted c))
  /\ completedCount (handleClearCompleted c) = 0%nat
  /\ activeCount (handleClearCompleted c) = activeCount c
  /\ todos (handleClearCompleted (handleClearCompleted c)) = todos (handleClearCompleted c)
  /\ clear_completed (render (handleClearCompleted c)) = false
  /\ todo_count (render (handleClearCompleted c)) =
       (if (activeCount c =? 0)%nat then None else Some (activeCount c))
  /\ toggle_all_checked (render (handleClearCompleted c)) =
       (if (activeCount c =? 0)%nat then None else Some false).
Proof.
  assert (Hall : Forall (fun t => completed t = false) (todos (handleClearCompleted c))).
  { apply Forall_forall. intros t Ht. simpl in Ht. apply filter_In in Ht.
    destruct Ht as [_ Ht]. now apply negb_true_iff. }
  assert (Hcc : completedCount (handleClearCompleted c) = 0%nat).
  { unfold completedCount. rewrite filter_none; [reflexivity|].
    intros t Ht. exact (proj1 (Forall_forall _ _) Hall t Ht). }
  assert (Hac : activeCount (handleClearCompleted c) = activeCount c).
  { unfold activeCount. simpl. now rewrite ListFacts.filter_idem. }
  assert (Hlen : List.length (todos (handleClearCompleted c)) = activeCount c)
    by reflexivity.
  conjuncts; auto.
  - simpl. apply ListFacts.filter_idem.
  - unfold render. cbn [clear_completed]. rewrite Hcc. apply andb_false_r.
  - unfold render. cbn [todo_count]. rewrite Hlen, Hac.
    now destruct (activeCount c).
  - unfold render. cbn [toggle_all_checked]. rewrite Hlen, Hac.
    now destruct (activeCount c).
Qed.

(** ** Editing *)

Lemma handleEditSubmit_todos i c :
  todos (handleEditSubmit i c) =
  if Str.blank (editValue c)
  then List.filter (fun t => negb (id t =? i)%Z) (todos c)
  else map (fun t => if (id t =? i)%Z then retitled (Str.trim (editValue c)) t else t)
         (todos c).
Proof.
  unfold handleEditSubmit. rewrite StrFacts.truthy_trim.
  now destruct (Str.blank (editValue c)).
Qed.

(** Committing a draft that is not blank changes titles only, and only
    those of the tasks with the id: the list keeps its length and order,
    every position its id and its completed flag, a task with another id is
    the task it was, and the filter is the one it was. *)
Theorem handleEditSubmit_frame (i : Z) (c : Component) :
  Str.blank (editValue c) = false ->
  List.length (todos (handleEditSubmit i c)) = List.length (todos c)
  /\ map id (todos (handleEditSubmit i c)) = map id (todos c)
  /\ map completed (todos (handleEditSubmit i c)) = map completed (todos c)
  /\ (forall k t, nth_error (todos c) k = Some t ->
        exists t', nth_error (todos (handleEditSubmit i c)) k = Some t'
                   /\ (if (id t =? i)%Z
                       then title t' = Str.trim (editValue c)
                       else t' = t))
  /\ filter (handleEditSubmit i c) = filter c.
Proof.
  intros Hb. rewrite handleEditSubmit_todos, Hb. conjuncts.
  - apply length_map.
  - rewrite map_map. apply map_ext. intros t. now destruct (id t =? i)%Z.
  - rewrite map_map. apply map_ext. intros t. now destruct (id t =? i)%Z.
  - intros k t Hk. rewrite nth_error_map, Hk. simpl. eexists. split; [reflexivity|].
    now destruct (id t =? i)%Z.
  - unfold handleEditSubmit. now destruct (Str.truthy _).
Qed.

Lemma handleEditSubmit_frame_witness :
  map id (todos (handleEditSubmit 1 editing_sample)) = map id (todos editing_sample).
Proof.
  apply (proj1 (proj2 (@handleEditSubmit_frame 1 editing_sample eq_refl))).
Defined.

(** An id that no task has is ignored: a toggle, a delete, a blur of the
    edit box or a key pressed in it leaves the list as it is, whatever the
    draft. *)
Theorem unknown_id_is_ignored (i : Z) (key : jsstring) (c : Component) :
  ~ In i (ids c) ->
  todos (handleToggle i c) = todos c
  /\ todos (handleDelete i c) = todos c
  /\ todos (handleEditSubmit i c) = todos c
  /\ todos (handleEditBlur i c) = todos c
  /\ todos (handleEditKeyDown key i c) = todos c.
Proof.
  intros Hi.
  assert (Hdel : List.filter (fun t => negb (id t =? i)%Z) (todos c) = todos c).
  { apply ListFacts.filter_all. intros t Ht.
    now rewrite (@not_in_ids_neq c i t Hi Ht). }
  assert (Hmap : forall f : Todo -> Todo,
             map (fun t => if (id t =? i)%Z then f t else t) (todos c) = todos c).
  { intros f. rewrite <- (map_id (todos c)) at 2. apply map_ext_in.
    intros t Ht. now rewrite (@not_in_ids_neq c i t Hi Ht). }
  assert (Hsub : todos (handleEditSubmit i c) = todos c).
  { rewrite handleEditSubmit_todos. destruct (Str.blank (editValue c)); auto. }
  conjuncts; auto.
  - apply (Hmap toggled).
  - unfold handleEditKeyDown.
    destruct (Str.eqb key (Str.lit "Enter")); [exact Hsub|].
    now destruct (Str.eqb key (Str.lit "Escape")).
Qed.

Lemma unknown_id_is_ignored_witness :
  todos (handleEditKeyDown (Str.lit "Enter") 7 editing_sample) = todos editing_sample.
Proof.
  apply (@unknown_id_is_ignored 7 (Str.lit "Enter") editing_sample).
  unfold ids. simpl. intuition discriminate.
Defined.

(** Events that concern the view only (starting an edit, typing a draft, a
    key other than Enter, choosing a filter) change neither the list nor
    what is stored, however many of them follow one another: a draft is
    never applied before it is committed, and starting another edit drops
    the draft in progress without committing it. *)
Theorem view_events_keep_list (events : list Event) (c : Component) :
  forallb view_only events = true ->
  todos (run events c) = todos c
  /\ localStorage (run events c) = localStorage c.
Proof.
  revert c. induction events as [|e events IH]; intros c H; simpl in *.
  - split; reflexivity.
  - apply andb_true_iff in H. destruct H as [He Hrest].
    destruct (IH (dispatch e c) Hrest) as [IH1 IH2].
    unfold run in *. rewrite IH1, IH2.
    destruct e as [now r|i|i|t|v|k i| i | |b|f]; try discriminate; try (split; reflexivity).
    simpl in He. simpl. unfold handleEditKeyDown.
    apply negb_true_iff in He. rewrite He.
    destruct (Str.eqb k (Str.lit "Escape")); split; reflexivity.
Qed.

Lemma view_events_keep_list_witness :
  todos (run sample_view_events toggle_sample) = todos toggle_sample
  /\ localStorage (run sample_view_events toggle_sample) = localStorage toggle_sample.
Proof. apply view_events_keep_list. reflexivity. Defined.

(** Starting an edit, typing, and pressing Escape gives back the component
    as it was before the edit started, when no edit was in progress then. *)
Theorem escape_restores_component (todo : Todo) (draft : jsstring) (i : Z) (c : Component) :
  editingId c = None -> editValue c = [] ->
  handleEditKeyDown (Str.lit "Escape") i
    (handleEditChange draft (handleEditStart todo c)) = c.
Proof.
  destruct c as [l f e v st]. simpl. intros -> ->. reflexivity.
Qed.

Lemma escape_restores_component_witness :
  handleEditKeyDown (Str.lit "Escape") 1
    (handleEditChange (Str.lit "x") (handleEditStart (new_todo 1 (Str.lit "buy milk")) toggle_sample))
  = toggle_sample.
Proof. apply escape_restores_component; reflexivity. Defined.

(** Starting an edit on a task of the list and committing at once, by Enter
    or by leaving the box, leaves the list as it is, when ids are pairwise
    different and the task's title is trimmed. *)
Theorem edit_without_change (todo : Todo) (c : Component) :
  In todo (todos c) -> NoDup (ids c) -> trimmed (title todo) ->
  todos (handleEditBlur (id todo) (handleEditStart todo c)) = todos c
  /\ todos (handleEditKeyDown (Str.lit "Enter") (id todo) (handleEditStart todo c)) = todos c.
Proof.
  intros Hin Hnd [Htrim Hne].
  assert (H : todos (handleEditSubmit (id todo) (handleEditStart todo c)) = todos c).
  { rewrite handleEditSubmit_todos.
    change (editValue (handleEditStart todo c)) with (title todo).
    change (todos (handleEditStart todo c)) with (todos c).
    assert (Hb : Str.blank (title todo) = false).
    { destruct (Str.blank (title todo)) eqn:E; [|reflexivity].
      apply StrFacts.trim_blank in E. congruence. }
    rewrite Hb, Htrim. rewrite <- (map_id (todos c)) at 2.
    apply map_ext_in. intros u Hu.
    destruct (id u =? id todo)%Z eqn:E; [|reflexivity].
    apply Z.eqb_eq in E.
    rewrite (@ListFacts.same_id_same_todo (todos c) todo u Hnd Hin Hu E).
    now destruct todo. }
  split; exact H.
Qed.

Lemma edit_without_change_witness :
  todos (handleEditBlur 2 (handleEditStart (new_todo 2 (Str.lit "feed cat")) toggle_sample))
  = todos toggle_sample.
Proof.
  apply (proj1 (@edit_without_change (new_todo 2 (Str.lit "feed cat")) toggle_sample
            (or_intror (or_introl eq_refl))
            ltac:(unfold ids; simpl; repeat constructor; simpl; intuition discriminate)
            ltac:(split; [reflexivity | discriminate]))).
Defined.

(** ** What is stored *)

(** Writing the list through [setTodos] is the only way the storage of a
    component changes. *)
Lemma localStorage_dispatch e c :
  localStorage (dispatch e c) = localStorage c
  \/ localStorage (dispatch e c) = saveTodos (todos (dispatch e c)) (localStorage c).
Proof.
  destruct e as [now r|i|i|t|v|k i| i | |b|f]; simpl;
    try (now left); try (now right).
  - unfold handleAddTodo. destruct (Str.truthy _); [now right | now left].
  - unfold handleEditKeyDown.
    destruct (Str.eqb k (Str.lit "Enter")).
    + right. unfold handleEditSubmit. now destruct (Str.truthy _).
    + left. now destruct (Str.eqb k (Str.lit "Escape")).
  - right. unfold handleEditSubmit. now destruct (Str.truthy _).
Qed.

Lemma stored_handleEditSubmit i c :
  stored (localStorage (handleEditSubmit i c)) (todos (handleEditSubmit i c)).
Proof.
  unfold handleEditSubmit. destruct (Str.truthy _); apply Roundtrip.stored_saveTodos.
Qed.

(** The entry holds the list in memory, after every event. *)
Lemma stored_dispatch e c :
  stored (localStorage c) (todos c) ->
  stored (localStorage (dispatch e c)) (todos (dispatch e c)).
Proof.
  intros Hst.
  destruct e as [now r|i|i|t|v|k i| i | |b|f]; simpl;
    try exact Hst; try apply Roundtrip.stored_saveTodos;
    try apply stored_handleEditSubmit.
  - unfold handleAddTodo.
    destruct (Str.truthy _); [apply Roundtrip.stored_saveTodos | exact Hst].
  - unfold handleEditKeyDown.
    destruct (Str.eqb k (Str.lit "Enter")); [apply stored_handleEditSubmit|].
    now destruct (Str.eqb k (Str.lit "Escape")).
Qed.

Lemma stored_run events : forall c,
  stored (localStorage c) (todos c) ->
  stored (localStorage (run events c)) (todos (run events c)).
Proof.
  induction events as [|e events IH]; intros c H; [exact H|].
  apply (IH (dispatch e c)). now apply stored_dispatch.
Qed.

Lemma stored_TodoApp storage c :
  TodoApp storage = Some c -> stored (localStorage c) (todos c).
Proof.
  unfold TodoApp. destruct (loadTodos storage) as [v|]; [|discriminate].
  destruct (as_todos v); [|discriminate].
  intros [= <-]. apply Roundtrip.stored_saveTodos.
Qed.

(** Write-through and reload.  Once the component is rendered, whatever
    events follow, the storage entry is the serialization of the list in
    memory; loading the page again from that storage succeeds and starts
    with the same list, the filter back on All and no edit in progress. *)
Theorem reload_restores_list (storage : Storage.t) (events : list Event) (c : Component) :
  TodoApp storage = Some c ->
  stored (localStorage (run events c)) (todos (run events c))
  /\ exists c',
       TodoApp (localStorage (run events c)) = Some c'
       /\ todos c' = todos (run events c)
       /\ filter c' = All /\ editingId c' = None /\ editValue c' = [].
Proof.
  intros Hc. pose proof (@stored_run events c (@stored_TodoApp storage c Hc)) as Hst.
  split; [exact Hst|].
  unfold TodoApp. rewrite (Roundtrip.loadTodos_stored Hst), Roundtrip.as_todos_value.
  eexists. split; [reflexivity|]. repeat split.
Qed.

Lemma reload_restores_list_witness :
  exists c',
    TodoApp (localStorage (run sample_view_events empty_app)) = Some c'
    /\ todos c' = todos (run sample_view_events empty_app)
    /\ filter c' = All /\ editingId c' = None /\ editValue c' = [].
Proof.
  apply (proj2 (@reload_restores_list [] sample_view_events empty_app eq_refl)).
Defined.

(** The first render replaces what it could not read.  When the entry is
    absent, or is not JSON text, the component starts with the empty list
    and the effect writes the text of the empty array over the entry. *)
Theorem unreadable_entry_is_overwritten (storage : Storage.t) :
  (Storage.getItem LOCAL_STORAGE_KEY storage = None
   \/ exists s e, Storage.getItem LOCAL_STORAGE_KEY storage = Some s
                  /\ JSON.parse s = Throw e) ->
  exists c,
    TodoApp storage = Some c
    /\ todos c = []
    /\ Storage.getItem LOCAL_STORAGE_KEY (localStorage c) = Some (Str.lit "[]").
Proof.
  intros H.
  assert (E : loadTodos storage = Return (JSON.Array [])).
  { unfold loadTodos. destruct H as [->|[s [e [-> Hs]]]]; [reflexivity|].
    destruct s as [|a s]; [reflexivity|].
    unfold or_default, Str.truthy. now rewrite Hs. }
  unfold TodoApp. rewrite E. simpl. eexists. split; [reflexivity|].
  split; [reflexivity|]. apply Roundtrip.getItem_setItem.
Qed.

Lemma unreadable_entry_is_overwritten_witness :
  exists c,
    TodoApp sample_storage = Some c
    /\ todos c = []
    /\ Storage.getItem LOCAL_STORAGE_KEY (localStorage c) = Some (Str.lit "[]").
Proof.
  apply unreadable_entry_is_overwritten. right.
  exists (Str.lit "{oops"), SyntaxError. split; reflexivity.
Defined.

Lemma other_key_saveTodos k l st :
  Str.eqb k LOCAL_STORAGE_KEY = false ->
  Storage.getItem k (saveTodos l st) = Storage.getItem k st.
Proof. intros H. now apply StorageFacts.getItem_setItem_other. Qed.

(** The component writes its own entry and no other: under any other key,
    storage holds after the first render and after every event what it
    held before the page was loaded. *)
Theorem other_keys_untouched (k : jsstring) (storage : Storage.t)
  (events : list Event) (c : Component) :
  Str.eqb k LOCAL_STORAGE_KEY = false ->
  TodoApp storage = Some c ->
  Storage.getItem k (localStorage (run events c)) = Storage.getItem k storage.
Proof.
  intros Hk Hc.
  assert (H0 : Storage.getItem k (localStorage c) = Storage.getItem k storage).
  { unfold TodoApp in Hc. destruct (loadTodos storage) as [v|]; [|discriminate].
    destruct (as_todos v); [|discriminate].
    injection Hc as <-. now apply other_key_saveTodos. }
  rewrite <- H0. clear H0 Hc. revert c.
  induction events as [|e events IH]; intros c; [reflexivity|].
  simpl. unfold run in IH. rewrite IH.
  destruct (localStorage_dispatch e c) as [->| ->]; [reflexivity|].
  now apply other_key_saveTodos.
Qed.

Lemma other_keys_untouched_witness :
  exists c,
    TodoApp sample_storage = Some c
    /\ Storage.getItem (Str.lit "theme")
         (localStorage (run [Submit 1 (Some (Str.lit "buy milk")); ToggleClick 1] c))
       = Some (Str.lit "dark").
Proof.
  eexists. split; [reflexivity|].
  apply (@other_keys_untouched (Str.lit "theme") sample_storage); reflexivity.
Defined.

(** ** Titles are kept trimmed *)

Lemma titles_trimmed_filter p l : titles_trimmed l -> titles_trimmed (List.filter p l).
Proof.
  unfold titles_trimmed. rewrite !Forall_forall. intros H t Ht.
  apply filter_In in Ht. now apply H.
Qed.

Lemma titles_trimmed_map (f : Todo -> Todo) l :
  (forall t, trimmed (title t) -> trimmed (title (f t))) ->
  titles_trimmed l -> titles_trimmed (map f l).
Proof.
  unfold titles_trimmed. rewrite !Forall_forall. intros Hf H t Ht.
  apply in_map_iff in Ht. destruct Ht as [u [<- Hu]]. apply Hf. now apply H.
Qed.

Lemma titles_trimmed_handleEditSubmit i c :
  titles_trimmed (todos c) -> titles_trimmed (todos (handleEditSubmit i c)).
Proof.
  intros H. unfold handleEditSubmit.
  destruct (Str.truthy (Str.trim (editValue c))) eqn:E; simpl.
  - apply titles_trimmed_map; [|exact H].
    intros t Ht. destruct (id t =? i)%Z; [|exact Ht].
    now apply TrimFacts.trimmed_trim.
  - now apply titles_trimmed_filter.
Qed.

Lemma titles_trimmed_dispatch e c :
  titles_trimmed (todos c) -> titles_trimmed (todos (dispatch e c)).
Proof.
  intros H.
  destruct e as [now r|i|i|t|v|k i| i | |b|f]; simpl; try exact H.
  - unfold handleAddTodo. destruct r as [v|]; [|exact H].
    destruct (Str.truthy (Str.trim v)) eqn:E; [|exact H].
    simpl. apply Forall_app. split; [exact H|].
    constructor; [|constructor]. now apply TrimFacts.trimmed_trim.
  - apply titles_trimmed_map; [|exact H]. intros t Ht. now destruct (id t =? i)%Z.
  - now apply titles_trimmed_filter.
  - unfold handleEditKeyDown.
    destruct (Str.eqb k (Str.lit "Enter")); [now apply titles_trimmed_handleEditSubmit|].
    now destruct (Str.eqb k (Str.lit "Escape")).
  - now apply titles_trimmed_handleEditSubmit.
  - now apply titles_trimmed_filter.
  - apply titles_trimmed_map; [|exact H]. auto.
Qed.

Lemma titles_trimmed_trace events : forall c,
  titles_trimmed (todos c) ->
  Forall (fun c => titles_trimmed (todos c)) (trace events c)
  /\ titles_trimmed (todos (run events c)).
Proof.
  induction events as [|e events IH]; intros c H; simpl.
  - split; [now constructor | exact H].
  - destruct (IH (dispatch e c) (@titles_trimmed_dispatch e c H)) as [Htr Hrun].
    split; [now constructor | exact Hrun].
Qed.

(** Every title the component holds is a trimmed one: it is not empty and
    neither starts nor ends with white space.  This holds in every state
    of any series of page loads and events, from storage that holds
    nothing or a list of trimmed titles written by the component. *)
Theorem titles_stay_trimmed (loads : list (list Event)) (storage : Storage.t) :
  (Storage.getItem LOCAL_STORAGE_KEY storage = None
   \/ exists l, stored storage l /\ titles_trimmed l) ->
  exists states,
    sessions loads storage = Some states
    /\ Forall (fun c => titles_trimmed (todos c)) states.
Proof.
  revert storage. induction loads as [|events later IH]; intros storage Hok; simpl.
  - exists []. split; [reflexivity | constructor].
  - assert (Hc : exists c, TodoApp storage = Some c /\ titles_trimmed (todos c)).
    { unfold TodoApp. destruct Hok as [Habs | [l [Hl Ht]]].
      - assert (E : loadTodos storage = Return (JSON.Array []))
          by (unfold loadTodos; now rewrite Habs).
        rewrite E. simpl. eexists. split; [reflexivity | constructor].
      - rewrite (Roundtrip.loadTodos_stored Hl), Roundtrip.as_todos_value.
        eexists. split; [reflexivity | exact Ht]. }
    destruct Hc as [c [Hc Ht]]. rewrite Hc.
    destruct (@titles_trimmed_trace events c Ht) as [Htr Hrun].
    destruct (IH (localStorage (run events c))) as [states [-> Hstates]].
    { right. exists (todos (run events c)). split; [|exact Hrun].
      apply stored_run. now apply (@stored_TodoApp storage). }
    eexists. split; [reflexivity|]. apply Forall_app. now split.
Qed.

Lemma titles_stay_trimmed_witness :
  exists states,
    sessions sample_loads [] = Some states
    /\ Forall (fun c => titles_trimmed (todos c)) states.
Proof. apply titles_stay_trimmed. left. reflexivity. Defined.

(** ** Order and provenance of the tasks *)

Lemma ids_filter_subsequence p c l :
  l = List.filter p (todos c) -> subsequence (map id l) (ids c).
Proof.
  intros ->. apply ListFacts.subsequence_map, ListFacts.subsequence_filter.
Qed.

Lemma ids_handleEditSubmit i c : subsequence (ids (handleEditSubmit i c)) (ids c).
Proof.
  unfold ids. rewrite handleEditSubmit_todos.
  destruct (Str.blank (editValue c)).
  - apply ListFacts.subsequence_map, ListFacts.subsequence_filter.
  - rewrite map_map.
    rewrite (map_ext _ id); [apply ListFacts.subsequence_refl|].
    intros t. now destruct (id t =? i)%Z.
Qed.

(** No handler reorders the tasks or makes up an id.  After an event the
    ids, in list order, are the ids before it with some struck out, a
    submit being allowed its clock reading at the end; so the list grows
    by one task at most, and only on a submit. *)
Theorem events_keep_order (e : Event) (c : Component) :
  subsequence (ids (dispatch e c)) (ids c ++ clock_readings e)
  /\ (List.length (todos (dispatch e c))
      <= List.length (todos c) + List.length (clock_readings e))%nat
  /\ (forall i, In i (ids (dispatch e c)) -> In i (ids c) \/ In i (clock_readings e)).
Proof.
  assert (H : subsequence (ids (dispatch e c)) (ids c ++ clock_readings e)).
  { destruct e as [now r|i|i|t|v|k i| i | |b|f]; simpl;
      rewrite ?app_nil_r; try apply ListFacts.subsequence_refl.
    - unfold handleAddTodo. destruct (Str.truthy _); simpl.
      + unfold ids. simpl. rewrite map_app. apply ListFacts.subsequence_refl.
      + apply ListFacts.subsequence_app_r, ListFacts.subsequence_refl.
    - unfold ids. simpl. rewrite map_map.
      rewrite (map_ext _ id); [apply ListFacts.subsequence_refl|].
      intros t. now destruct (id t =? i)%Z.
    - now apply (@ids_filter_subsequence (fun t => negb (id t =? i)%Z)).
    - unfold handleEditKeyDown.
      destruct (Str.eqb k (Str.lit "Enter")); [apply ids_handleEditSubmit|].
      destruct (Str.eqb k (Str.lit "Escape")); apply ListFacts.subsequence_refl.
    - apply ids_handleEditSubmit.
    - now apply (@ids_filter_subsequence (fun t => negb (completed t))).
    - unfold ids. simpl. rewrite map_map. apply ListFacts.subsequence_refl. }
  conjuncts.
  - exact H.
  - apply ListFacts.subsequence_length in H.
    unfold ids in H. rewrite length_app, !length_map in H. exact H.
  - intros i Hi. apply in_app_or. eapply ListFacts.subsequence_In; eassumption.
Qed.

(** ** The rows *)

Lemma length_filter_map (A B : Type) (f : A -> B) (p : B -> bool) l :
  List.length (List.filter p (map f l)) = List.length (List.filter (fun x => p (f x)) l).
Proof.
  induction l as [|x l IH]; simpl; [reflexivity|].
  destruct (p (f x)); simpl; now rewrite IH.
Qed.

(** The list shows one row for each task the filter lets through, in their
    order, while the list is not empty.  An edit box sits only in a row
    whose key is [editingId] and holds the draft; there are as many as
    there are shown tasks with that id, so with pairwise different ids at
    most one.  With no edit in progress every row shows its toggle, checked
    as the task is completed, and its title, and no edit box; during the
    edit of a task whose id is not 0 no row shows a toggle or a label. *)
Theorem edit_box_in_one_row (c : Component) :
  let rs := map (render_row c) (filteredTodos c) in
  rows c = match todos c with [] => None | _ :: _ => Some rs end
  /\ map key rs = map id (filteredTodos c)
  /\ List.length (List.filter has_edit rs)
       = List.length (List.filter (editing c) (filteredTodos c))
  /\ (NoDup (ids c) -> (List.length (List.filter has_edit rs) <= 1)%nat)
  /\ Forall (fun r => forall v, edit r = Some v ->
                      v = editValue c /\ editingId c = Some (key r)) rs
  /\ (editingId c = None ->
      map toggle rs = map (fun t => Some (completed t, false)) (filteredTodos c)
      /\ map label rs = map (fun t => Some (title t, false)) (filteredTodos c)
      /\ List.filter has_edit rs = [])
  /\ (forall i, editingId c = Some i -> i <> 0%Z ->
      Forall (fun r => toggle r = None /\ label r = None) rs).
Proof.
  intros rs. subst rs.
  assert (Hcount : List.length (List.filter has_edit (map (render_row c) (filteredTodos c)))
                   = List.length (List.filter (editing c) (filteredTodos c))).
  { rewrite length_filter_map. f_equal. apply filter_ext. intros t.
    unfold has_edit, render_row. cbn [edit]. now destruct (editing c t). }
  conjuncts.
  - unfold rows. now destruct (todos c).
  - rewrite map_map. reflexivity.
  - exact Hcount.
  - intros Hnd. rewrite Hcount. unfold editing.
    destruct (editingId c) as [i|].
    + apply ListFacts.at_most_one_with_id. unfold filteredTodos.
      now apply NoDup_map_filter.
    + rewrite filter_none; [simpl; lia | reflexivity].
  - apply Forall_forall. intros r Hr. apply in_map_iff in Hr.
    destruct Hr as [t [<- _]]. unfold render_row, editing. cbn [edit key].
    destruct (editingId c) as [i|]; [|discriminate].
    destruct (i =? id t)%Z eqn:E; [|discriminate].
    apply Z.eqb_eq in E. intros v [= <-]. split; congruence.
  - intros Hnone. unfold render_row, not_editingId, editing, has_edit.
    rewrite Hnone. rewrite !map_map. cbn [toggle label edit].
    conjuncts; try reflexivity.
    apply filter_none. intros r Hr. apply in_map_iff in Hr.
    now destruct Hr as [t [<- _]].
  - intros i Hi Hi0. apply Forall_forall. intros r Hr. apply in_map_iff in Hr.
    destruct Hr as [t [<- _]]. unfold render_row, not_editingId.
    cbn [toggle label]. rewrite Hi.
    destruct (i =? 0)%Z eqn:E; [apply Z.eqb_eq in E; contradiction|].
    split; reflexivity.
Qed.

Lemma edit_box_in_one_row_witness :
  (List.length (List.filter has_edit (map (render_row editing_sample) (filteredTodos editing_sample))) <= 1)%nat
  /\ Forall (fun r => toggle r = None /\ label r = None)
       (map (render_row editing_sample) (filteredTodos editing_sample)).
Proof.
  split.
  - apply (proj1 (proj2 (proj2 (proj2 (edit_box_in_one_row editing_sample))))).
    unfold ids. simpl. repeat constructor; simpl; intuition discriminate.
  - apply (proj2 (proj2 (proj2 (proj2 (proj2 (proj2 (edit_box_in_one_row editing_sample))))))
             1%Z); [reflexivity | discriminate].
Defined.

(** ** The input box, and mark all *)

(** A submit with the input detached does nothing.  Otherwise the input is
    emptied exactly when a task is added: text that is blank stays in the
    box as typed and the component is left as it is. *)
Theorem handleAddTodo_input_box (now : Z) (v : jsstring) (c : Component) :
  handleAddTodo now None c = (c, None)
  /\ snd (handleAddTodo now (Some v) c) = Some (if Str.blank v then v else [])
  /\ (List.length (todos (fst (handleAddTodo now (Some v) c))) =
      if Str.blank v then List.length (todos c) else S (List.length (todos c))).
Proof.
  conjuncts.
  - reflexivity.
  - unfold handleAddTodo. rewrite StrFacts.truthy_trim. now destruct (Str.blank v).
  - unfold handleAddTodo. rewrite StrFacts.truthy_trim.
    destruct (Str.blank v); simpl; [reflexivity|].
    rewrite length_app. simpl. lia.
Qed.

(** Mark all composes as one would expect.  Of two in a row the later one
    decides, for the list and for what is stored; the checkbox then shows
    the value just given; after marking all as completed, clear completed
    empties the list, and after marking all as not completed it removes
    nothing. *)
Theorem handleMarkAll_composes (b b' : bool) (c : Component) :
  handleMarkAll b (handleMarkAll b' c) = handleMarkAll b c
  /\ toggle_all_checked (render (handleMarkAll b c)) =
       match todos c with
       | [] => None
       | _ :: _ => Some b
       end
  /\ todos (handleClearCompleted (handleMarkAll true c)) = []
  /\ todos (handleClearCompleted (handleMarkAll false c)) = todos (handleMarkAll false c).
Proof.
  conjuncts.
  - unfold handleMarkAll, setTodos. simpl. unfold saveTodos.
    rewrite StorageFacts.setItem_setItem, map_map. reflexivity.
  - unfold render. cbn [toggle_all_checked].
    change (todos (handleMarkAll b c))
      with (map (fun t => {| id := id t; title := title t; completed := b |}) (todos c)).
    rewrite length_map. destruct (todos c) as [|t l] eqn:E; [reflexivity|].
    cbn [List.length Nat.ltb Nat.leb]. f_equal.
    unfold activeCount.
    change (todos (handleMarkAll b c))
      with (map (fun t => {| id := id t; title := title t; completed := b |}) (todos c)).
    rewrite E. destruct b.
    + rewrite filter_none; [reflexivity|].
      intros x Hx. apply in_map_iff in Hx. now destruct Hx as [u [<- _]].
    + rewrite ListFacts.filter_all; [reflexivity|].
      intros x Hx. apply in_map_iff in Hx. now destruct Hx as [u [<- _]].
  - simpl. apply filter_none. intros x Hx. apply in_map_iff in Hx.
    now destruct Hx as [u [<- _]].
  - simpl. apply ListFacts.filter_all. intros x Hx. apply in_map_iff in Hx.
    now destruct Hx as [u [<- _]].
Qed.

(** ** How the handlers compose *)

Lemma setTodos_setTodos l l' c : setTodos l (setTodos l' c) = setTodos l c.
Proof.
  unfold setTodos, saveTodos. simpl. now rewrite StorageFacts.setItem_setItem.
Qed.

Lemma filter_filter_comm (A : Type) (p q : A -> bool) l :
  List.filter p (List.filter q l) = List.filter q (List.filter p l).
Proof.
  induction l as [|x l IH]; simpl; [reflexivity|].
  destruct (p x) eqn:Ep, (q x) eqn:Eq; simpl; rewrite ?Ep, ?Eq, IH; reflexivity.
Qed.

(** Toggles and deletes can be done in either order: two toggles commute,
    two deletes commute, and a toggle and a delete of different ids
    commute, as whole components, storage included.  Deleting a task makes
    a toggle of it beforehand pointless. *)
Theorem toggles_and_deletes_commute (i j : Z) (c : Component) :
  handleToggle i (handleToggle j c) = handleToggle j (handleToggle i c)
  /\ handleDelete i (handleDelete j c) = handleDelete j (handleDelete i c)
  /\ (i <> j -> handleDelete i (handleToggle j c) = handleToggle j (handleDelete i c))
  /\ handleDelete i (handleToggle i c) = handleDelete i c.
Proof.
  unfold handleToggle, handleDelete. rewrite !setTodos_setTodos.
  cbn [todos setTodos]. conjuncts.
  - f_equal. rewrite !map_map. apply map_ext. intros t.
    destruct (id t =? i)%Z eqn:Ei, (id t =? j)%Z eqn:Ej; cbn [id toggled];
      rewrite ?Ei, ?Ej; reflexivity.
  - f_equal. apply filter_filter_comm.
  - intros Hij. f_equal.
    induction (todos c) as [|t l IH]; [reflexivity|].
    cbn [map List.filter].
    destruct (id t =? j)%Z eqn:Ej; cbn [id];
      destruct (id t =? i)%Z eqn:Ei; cbn [negb map]; rewrite ?Ej, IH; try reflexivity.
  - f_equal. induction (todos c) as [|t l IH]; [reflexivity|].
    cbn [map List.filter].
    destruct (id t =? i)%Z eqn:Ei; cbn [id]; rewrite Ei; cbn [negb]; now rewrite IH.
Qed.

Lemma toggles_and_deletes_commute_witness :
  handleDelete 1 (handleToggle 2 toggle_sample) = handleToggle 2 (handleDelete 1 toggle_sample).
Proof.
  apply (proj1 (proj2 (proj2 (toggles_and_deletes_commute 1 2 toggle_sample)))).
  discriminate.
Defined.

(** ** The count of items left *)

Lemma active_after_toggle l t :
  NoDup (map id l) -> In t l ->
  (count (fun u => negb (completed u))
     (map (fun u => if (id u =? id t)%Z then toggled u else u) l)
   + (if completed t then 0 else 1)
   = count (fun u => negb (completed u)) l + (if completed t then 1 else 0))%nat.
Proof.
  induction l as [|a l IH]; simpl; [contradiction|].
  intros Hnd Hin. inversion Hnd as [|x xs Hnot Hnd']; subst.
  destruct Hin as [->|Hin].
  - rewrite Z.eqb_refl. simpl.
    assert (E : map (fun u => if (id u =? id t)%Z then toggled u else u) l = l).
    { rewrite <- (map_id l) at 2. apply map_ext_in. intros u Hu.
      destruct (id u =? id t)%Z eqn:E; [|reflexivity].
      exfalso. apply Hnot. apply Z.eqb_eq in E. rewrite <- E. now apply in_map. }
    rewrite E. destruct (completed t); simpl; lia.
  - destruct (id a =? id t)%Z eqn:E.
    + exfalso. apply Hnot. apply Z.eqb_eq in E. rewrite E. now apply in_map.
    + specialize (IH Hnd' Hin). destruct (completed a); simpl; lia.
Qed.

Lemma active_after_retitle text i l :
  count (fun u => negb (completed u))
    (map (fun t => if (id t =? i)%Z then retitled text t else t) l)
  = count (fun u => negb (completed u)) l.
Proof.
  induction l as [|t l IH]; [reflexivity|]. simpl. rewrite IH.
  now destruct (id t =? i)%Z.
Qed.

(** The count of items left follows the handlers.  An accepted add raises
    it by one; mark all sets it to the length of the list or to zero; clear
    completed leaves it; an edit never raises it, and leaves it when the
    draft is not blank.  When ids are pairwise different, toggling a task
    of the list raises it by one if the task was completed and lowers it by
    one if it was active. *)
Theorem items_left (now : Z) (text : jsstring) (todo : Todo) (b : bool) (i : Z) (c : Component) :
  activeCount (Add now text c) =
    (if Str.blank text then activeCount c else S (activeCount c))
  /\ (NoDup (ids c) -> In todo (todos c) ->
      (activeCount (handleToggle (id todo) c) + (if completed todo then 0 else 1)
       = activeCount c + (if completed todo then 1 else 0))%nat)
  /\ activeCount (handleMarkAll b c) = (if b then 0%nat else List.length (todos c))
  /\ activeCount (handleClearCompleted c) = activeCount c
  /\ activeCount (handleEditSubmit i c) <= activeCount c
  /\ (Str.blank (editValue c) = false -> activeCount (handleEditSubmit i c) = activeCount c).
Proof.
  unfold activeCount. rewrite !length_filter_count.
  conjuncts.
  - rewrite Add_todos. destruct (Str.blank text); [reflexivity|].
    rewrite <- !length_filter_count, filter_app, length_app. simpl. lia.
  - intros Hnd Hin. rewrite handleToggle_todos. now apply active_after_toggle.
  - rewrite <- length_filter_count. simpl. destruct b.
    + rewrite filter_none; [reflexivity|].
      intros x Hx. apply in_map_iff in Hx. now destruct Hx as [u [<- _]].
    + rewrite ListFacts.filter_all; [apply length_map|].
      intros x Hx. apply in_map_iff in Hx. now destruct Hx as [u [<- _]].
  - rewrite <- !length_filter_count. simpl. now rewrite ListFacts.filter_idem.
  - rewrite handleEditSubmit_todos. rewrite <- !length_filter_count.
    destruct (Str.blank (editValue c)).
    + rewrite filter_filter_comm. apply ListFacts.subsequence_length, ListFacts.subsequence_filter.
    + apply Nat.eq_le_incl. rewrite !length_filter_count.
      apply active_after_retitle.
  - intros Hb. rewrite handleEditSubmit_todos, Hb. apply active_after_retitle.
Qed.

Lemma items_left_witness :
  (activeCount (handleToggle 2 toggle_sample) + 1 = activeCount toggle_sample + 0)%nat
  /\ activeCount (handleEditSubmit 1 editing_sample) = activeCount editing_sample.
Proof.
  split.
  - apply (proj1 (proj2 (items_left 0 [] (new_todo 2 (Str.lit "feed cat")) true 0 toggle_sample))).
    + unfold ids. simpl. repeat constructor; simpl; intuition discriminate.
    + right. left. reflexivity.
  - apply (proj2 (proj2 (proj2 (proj2 (proj2
             (items_left 0 [] (new_todo 2 (Str.lit "feed cat")) true 1 editing_sample)))))).
    reflexivity.
Defined.
